(** * quadpy: Gauss-Kronrod rule construction, batch integration, Radon disk scheme

    Shallow embedding of
      - [src/quadpy/line_segment/_gauss_kronrod.py]
        ([gauss_kronrod], [_r_kronrod], [_gauss_kronrod_integrate]);
      - [src/quadpy/disk/_radon.py] ([radon]).

    Python exceptions are values of [exn] carried by the [result] monad;
    numpy arrays are lists indexed by Python integers ([Z], with the
    negative wrap-around of Python written out); the number type of the
    arrays is a parameter ([Numeric]) instantiated with exact rationals,
    exact reals and IEEE binary64. *)

From Stdlib Require Import String DecimalString.
From Stdlib Require Import ZArith QArith Qround List Bool Lia.
From Stdlib Require Import Permutation Sorted.
From Stdlib Require Import Floats Reals Lra.
Import ListNotations.

Set Implicit Arguments.

#[local] Open Scope Z_scope.

(** ** Python exceptions and the error monad *)

Inductive exn : Type :=
| AssertionError
| IndexError
| ValueError
| OutsideFragment.  (* no exception: the call leaves the embedded fragment *)

Inductive result (A : Type) : Type :=
| Ok (a : A)
| Raise (e : exn).

Arguments Ok {A} a.
Arguments Raise {A} e.

Definition bind {A B : Type} (c : result A) (k : A -> result B) : result B :=
  match c with
  | Ok a => k a
  | Raise e => Raise e
  end.

Notation "x <- c ;; k" := (bind c (fun x => k))
  (at level 61, c at next level, right associativity).
Notation "' pat <- c ;; k" := (bind c (fun x => match x with pat => k end))
  (at level 61, pat pattern, c at next level, right associativity).

(** [assert cond] *)
Definition assert (cond : bool) : result unit :=
  if cond then Ok tt else Raise AssertionError.

Fixpoint mapM {A B : Type} (f : A -> result B) (l : list A) : result (list B) :=
  match l with
  | [] => Ok []
  | x :: r => y <- f x ;; ys <- mapM f r ;; Ok (y :: ys)
  end.

Fixpoint foldM {A S : Type} (f : S -> A -> result S) (l : list A) (s : S)
  : result S :=
  match l with
  | [] => Ok s
  | x :: r => s' <- f s x ;; foldM f r s'
  end.

(** ** Python integer helpers *)

(** [int(math.floor(x / 2.0))] and [int(math.ceil(x / 2.0))] for an integer
    [x]: the quotient is formed as a rational, then rounded. *)
Definition floor_half (x : Z) : Z := Qfloor (x # 2).
Definition ceil_half (x : Z) : Z := Qceiling (x # 2).

(** [range(lo, hi)] *)
Definition range (lo hi : Z) : list Z :=
  map (fun i => lo + Z.of_nat i) (seq 0 (Z.to_nat (hi - lo))).

(** [numpy.arange(lo, hi)] with step 1 and [numpy.arange(hi, -1, -1)]. *)
Definition arange (lo hi : Z) : list Z := range lo hi.
Definition arange_down (hi : Z) : list Z := rev (range 0 (hi + 1)).

Definition len {A : Type} (l : list A) : Z := Z.of_nat (length l).

(** ** numpy one-dimensional arrays *)

Section Arrays.
Variable A : Type.

(** Position addressed by index [i] in an array of length [n]: negative
    indices count from the end, anything outside [-n, n) is an
    [IndexError]. *)
Definition position (n i : Z) : result nat :=
  if (0 <=? i) && (i <? n) then Ok (Z.to_nat i)
  else if (- n <=? i) && (i <? 0) then Ok (Z.to_nat (n + i))
  else Raise IndexError.

(** [l[i]] *)
Definition getitem (l : list A) (i : Z) : result A :=
  p <- position (len l) i ;;
  match nth_error l p with
  | Some v => Ok v
  | None => Raise IndexError
  end.

Fixpoint update (l : list A) (p : nat) (v : A) : list A :=
  match l, p with
  | [], _ => []
  | _ :: r, O => v :: r
  | x :: r, S p' => x :: update r p' v
  end.

(** [l[i] = v] *)
Definition setitem (l : list A) (i : Z) (v : A) : result (list A) :=
  p <- position (len l) i ;;
  Ok (update l p v).

(** [l[idx]] for an index array [idx] *)
Definition take (l : list A) (idx : list Z) : result (list A) :=
  mapM (getitem l) idx.

(** [l[idx] = vals] for an index array [idx]: the values are stored in
    order, every index is checked; a [vals] of another length that is
    not a single value cannot be broadcast. *)
Definition put (l : list A) (idx : list Z) (vals : list A)
  : result (list A) :=
  vs <- (if (length vals =? length idx)%nat then Ok vals
         else match vals with
              | [v] => Ok (repeat v (length idx))
              | _ => Raise ValueError
              end) ;;
  foldM (fun acc iv => setitem acc (fst iv) (snd iv)) (combine idx vs) l.

(** Bound of a slice, clamped the way Python does. *)
Definition clamp (n i : Z) : nat :=
  Z.to_nat (if i <? 0 then Z.max 0 (n + i) else Z.min i n).

(** [l[lo:hi]] *)
Definition slice (l : list A) (lo hi : Z) : list A :=
  let p := clamp (len l) lo in
  let q := clamp (len l) hi in
  firstn (q - p) (skipn p l).

(** [l[lo:hi] = vals]; numpy copies [vals] before writing when it
    overlaps [l], and broadcasts a single value. *)
Definition setslice (l : list A) (lo hi : Z) (vals : list A)
  : result (list A) :=
  let p := clamp (len l) lo in
  let q := clamp (len l) hi in
  let w := (q - p)%nat in
  vs <- (if (length vals =? w)%nat then Ok vals
         else match vals with
              | [v] => Ok (repeat v w)
              | _ => Raise ValueError
              end) ;;
  Ok (firstn p l ++ vs ++ skipn (p + w) l).
End Arrays.

(** ** The number type *)

(** Arithmetic of the array elements.  numpy's float arithmetic does not
    raise (a division by zero is a value, with a warning), so the
    operations are total. *)
Class Numeric (num : Type) : Type := {
  zero : num;
  add : num -> num -> num;
  sub : num -> num -> num;
  mul : num -> num -> num;
  div : num -> num -> num;
  neg : num -> num
}.

Section Kronrod.
Context {num : Type} {N : Numeric num}.

(** [numpy.zeros(k)] *)
Definition zeros (k : Z) : result (list num) :=
  if k <? 0 then Raise ValueError else Ok (repeat zero (Z.to_nat k)).

(** [numpy.cumsum(v)] *)
Fixpoint cumsum_from (acc : num) (v : list num) : list num :=
  match v with
  | [] => []
  | x :: r => let acc' := add acc x in acc' :: cumsum_from acc' r
  end.

Definition cumsum (v : list num) : list num :=
  match v with
  | [] => []
  | x :: r => x :: cumsum_from x r
  end.

(** Loop state of [_r_kronrod]: the output arrays and the two buffers. *)
Record kstate : Type := KState {
  ka : list num;
  kb : list num;
  ks : list num;
  kt : list num
}.

(** Body of the first loop, [for m in range(n - 1)]. *)
Definition forward_step (n : Z) (st : kstate) (m : Z) : result kstate :=
  let '(KState a b s t) := st in
  let k0 := floor_half (m + 1) in
  let k := arange_down k0 in
  terms <- mapM (fun k =>
      let L := m - k in
      akn <- getitem a (k + n + 1) ;;
      aL <- getitem a L ;;
      tk1 <- getitem t (k + 1) ;;
      bkn <- getitem b (k + n + 1) ;;
      sk <- getitem s k ;;
      bL <- getitem b L ;;
      sk1 <- getitem s (k + 1) ;;
      Ok (sub (add (mul (sub akn aL) tk1) (mul bkn sk)) (mul bL sk1))) k ;;
  s' <- put s (map (fun k => k + 1) k) (cumsum terms) ;;
  Ok (KState a b t s').

(** [j[-1]] *)
Definition last_index (j : list Z) : result Z := getitem j (-1).

(** Body of the second loop, [for m in range(n - 1, 2 * n - 2)]. *)
Definition backward_step (n : Z) (st : kstate) (m : Z) : result kstate :=
  let '(KState a b s t) := st in
  let k0 := m + 1 - n in
  let k1 := floor_half (m - 1) in
  let k := arange k0 (k1 + 1) in
  let jof := fun k => n - 1 - (m - k) in
  terms <- mapM (fun k =>
      let L := m - k in
      let j := jof k in
      akn <- getitem a (k + n + 1) ;;
      aL <- getitem a L ;;
      tj1 <- getitem t (j + 1) ;;
      bkn <- getitem b (k + n + 1) ;;
      sj1 <- getitem s (j + 1) ;;
      bL <- getitem b L ;;
      sj2 <- getitem s (j + 2) ;;
      Ok (add (sub (mul (neg (sub akn aL)) tj1) (mul bkn sj1))
              (mul bL sj2))) k ;;
  s' <- put s (map (fun k => jof k + 1) k) (cumsum terms) ;;
  j <- last_index (map jof k) ;;
  let k := floor_half (m + 1) in
  if m mod 2 =? 0 then
    ak <- getitem a k ;;
    sj1 <- getitem s' (j + 1) ;;
    bkn <- getitem b (k + n + 1) ;;
    sj2 <- getitem s' (j + 2) ;;
    tj2 <- getitem t (j + 2) ;;
    a' <- setitem a (k + n + 1)
                  (add ak (div (sub sj1 (mul bkn sj2)) tj2)) ;;
    Ok (KState a' b t s')
  else
    sj1 <- getitem s' (j + 1) ;;
    sj2 <- getitem s' (j + 2) ;;
    b' <- setitem b (k + n + 1) (div sj1 sj2) ;;
    Ok (KState a b' t s').

(** [_r_kronrod(n, a0, b0)] *)
Definition _r_kronrod (n : Z) (a0 b0 : list num)
  : result (list num * list num) :=
  _ <- assert (len a0 =? ceil_half (3 * n) + 1) ;;
  _ <- assert (len b0 =? ceil_half (3 * n) + 1) ;;
  a <- zeros (2 * n + 1) ;;
  b <- zeros (2 * n + 1) ;;
  let k := floor_half (3 * n) + 1 in
  a <- setslice a 0 k (slice a0 0 k) ;;
  let k := ceil_half (3 * n) + 1 in
  b <- setslice b 0 k (slice b0 0 k) ;;
  s <- zeros (floor_half n + 2) ;;
  t <- zeros (floor_half n + 2) ;;
  bn1 <- getitem b (n + 1) ;;
  t <- setitem t 1 bn1 ;;
  st <- foldM (forward_step n) (range 0 (n - 1)) (KState a b s t) ;;
  let '(KState a b s t) := st in
  let j := floor_half n + 1 in
  s <- setslice s 1 (j + 1) (slice s 0 j) ;;
  st <- foldM (backward_step n) (range (n - 1) (2 * n - 2))
              (KState a b s t) ;;
  let '(KState a b s t) := st in
  an1 <- getitem a (n - 1) ;;
  b2n <- getitem b (2 * n) ;;
  s1 <- getitem s 1 ;;
  t1 <- getitem t 1 ;;
  a <- setitem a (2 * n) (sub an1 (div (mul b2n s1) t1)) ;;
  Ok (a, b).

(** Number of leading entries the recursion leaves alone. *)
Definition kept (n : Z) : nat := Z.to_nat (floor_half (3 * n) + 1).

(** Invariant of both loops of [_r_kronrod]: the four arrays keep their
    lengths and the leading entries of [a] and [b] are those of the
    arrays [a1], [b1] the loops started from. *)
Definition kinv (n : Z) (a1 b1 : list num) (st : kstate) : Prop :=
  len (ka st) = 2 * n + 1 /\ len (kb st) = 2 * n + 1 /\
  len (ks st) = n / 2 + 2 /\ len (kt st) = n / 2 + 2 /\
  firstn (kept n) (ka st) = firstn (kept n) a1 /\
  firstn (kept n) (kb st) = firstn (kept n) b1.
End Kronrod.

(** ** [gauss_kronrod] *)

(** Order of the array elements, as [numpy.argsort] compares them. *)
Class Compare (num : Type) : Type := {
  leq : num -> num -> bool
}.

(** The scheme object; the bibliographic [citation] is a constant of the
    module and is left out. *)
Record LineSegmentScheme (num : Type) : Type := {
  name : String.string;
  degree : Z;
  weights : list num;
  points : list num
}.

Section GaussKronrod.
Context {num : Type} {N : Numeric num} {C : Compare num}.

(** [orthopy.line_segment.recurrence_coefficients.jacobi(length, a, b,
    "monic")] followed by the conversion to floats, for the default
    [a = b = 0]: the recurrence coefficients [alpha], [beta] of the
    weight.  External to the repository. *)
Variable jacobi : Z -> result (list num * list num).

(** [scheme_from_rc(a, b, mode="numpy")]: nodes and weights from the
    eigenproblem of the tridiagonal matrix of [a] and [b].  Lives in
    [quadpy.tools] on top of an external eigensolver. *)
Variable scheme_from_rc :
  list num -> list num -> result (list num * list num).

(** [numpy.argsort(x)]: the indices that sort [x]; among equal entries
    the earlier index comes first. *)
Fixpoint insert_by (key : nat -> num) (i : nat) (l : list nat) : list nat :=
  match l with
  | [] => [i]
  | j :: r => if leq (key i) (key j) then i :: l else j :: insert_by key i r
  end.

Definition sort_indices (x : list num) : list nat :=
  fold_right (insert_by (fun i => nth i x zero)) [] (seq 0 (length x)).

Definition argsort (x : list num) : list Z :=
  map Z.of_nat (sort_indices x).

(** Ascending order of two neighbours. *)
Definition ascending (u v : num) : Prop := leq u v = true.

Definition gauss_kronrod (n : Z) : result (LineSegmentScheme num) :=
  let length := ceil_half (3 * n) + 1 in
  let degree := 2 * length + 1 in
  '(alpha, beta) <- jacobi length ;;
  '(a, b) <- _r_kronrod n alpha beta ;;
  '(x, w) <- scheme_from_rc a b ;;
  let i := argsort x in
  points <- take x i ;;
  weights <- take w i ;;
  Ok {| name := String.append "Gauss-Kronrod ("%string
                  (String.append
                     (DecimalString.NilEmpty.string_of_int (Z.to_int n))
                     ")"%string);
        degree := degree;
        weights := weights;
        points := points |}.
End GaussKronrod.

(** ** [_gauss_kronrod_integrate] *)

(** The further operations of the integrator on array elements, with the
    literals of the source. *)
Class Elementary (num : Type) : Type := {
  half : num;                     (* 0.5 *)
  one : num;                      (* 1.0 *)
  two_hundred : num;              (* 200 *)
  three_halves : num;             (* 1.5 *)
  absolute : num -> num;          (* numpy.abs, abs *)
  sqrt : num -> num;              (* numpy.sqrt *)
  power : num -> num -> num;      (* x ** y *)
  minimum : num -> num -> num     (* numpy.minimum *)
}.

(** Equality of two shapes (tuples of integers). *)
Fixpoint shape_eqb (u v : list Z) : bool :=
  match u, v with
  | [], [] => true
  | x :: u', y :: v' => (x =? y) && shape_eqb u' v'
  | _, _ => false
  end.

(** An array of rank two, one row per interval. *)
Definition matrix (num : Type) : Type := list (list num).

(** Code with access to the integrand: a computation carries the list of
    arrays [f] has been called on so far, and may raise. *)
Definition traced (num A : Type) : Type :=
  list (matrix num) -> result A * list (matrix num).

Definition tret {num A : Type} (a : A) : traced num A :=
  fun log => (Ok a, log).

Definition tbind {num A B : Type} (c : traced num A) (k : A -> traced num B)
  : traced num B :=
  fun log =>
    match c log with
    | (Ok a, log') => k a log'
    | (Raise e, log') => (Raise e, log')
    end.

Definition lift {num A : Type} (r : result A) : traced num A :=
  fun log => (r, log).

(** [f(sp)]: one evaluation of the integrand, recorded. *)
Definition call {num : Type} (f : matrix num -> result (matrix num))
           (sp : matrix num) : traced num (matrix num) :=
  fun log => (f sp, log ++ [sp]).

Notation "x <~ c ;; k" := (tbind c (fun x => k))
  (at level 61, c at next level, right associativity).

(** The local variables of [_gauss_kronrod_integrate] at its [return]. *)
Record locals (num : Type) : Type := {
  fx_gk : matrix num;
  val_gauss_kronrod : list num;
  val_gauss_legendr : list num;
  alpha : list num;
  I_tilde : list num;
  error_estimate : list num;
  domain_shape : list Z;
  range_shape : list Z
}.

Section Integrate.
Context {num : Type} {N : Numeric num} {C : Compare num} {E : Elementary num}.

Variable jacobi : Z -> result (list num * list num).
Variable scheme_from_rc :
  list num -> list num -> result (list num * list num).

(** [gauss_legendre(k)], of [quadpy.line_segment._gauss_legendre]. *)
Variable gauss_legendre : Z -> result (LineSegmentScheme num).

(** Elementwise operation on two arrays of one shape. *)
Fixpoint zip_with {X Y W : Type} (op : X -> Y -> W) (u : list X) (v : list Y)
  : list W :=
  match u, v with
  | x :: u', y :: v' => op x y :: zip_with op u' v'
  | _, _ => []
  end.

(** [numpy.multiply.outer(u, v)] *)
Definition outer (u v : list num) : matrix num :=
  map (fun x => map (fun y => mul x y) v) u.

(** [row[1::2]] *)
Fixpoint odd_entries (row : list num) : list num :=
  match row with
  | _ :: y :: r => y :: odd_entries r
  | _ => []
  end.

Definition weighted_sum (row w : list num) : num :=
  fold_left add (zip_with mul row w) zero.

(** [dot(m, w)] for a matrix and a vector: the last axis of [m] must have
    the length of [w]. *)
Definition dot (m : matrix num) (w : list num) : result (list num) :=
  mapM (fun row =>
          if (length row =? length w)%nat then Ok (weighted_sum row w)
          else Raise ValueError) m.

(** The sample points [sp]: the nodes scaled onto every interval. *)
Definition sample_points (pts : list num) (intervals : list (num * num))
  : matrix num :=
  let x0 := map (fun t => mul half (sub one t)) pts in
  let x1 := map (fun t => mul half (add one t)) pts in
  zip_with (zip_with add) (outer (map fst intervals) x0)
           (outer (map snd intervals) x1).

(** [_find_shapes] belongs to [quadpy.line_segment._helpers].  The
    embedding covers a batch of [m] scalar intervals ([intervals] of shape
    [(2, m)], given as the list of its columns) and an integrand whose
    value has one row per interval; there [domain_shape] and [range_shape]
    are [()] and [interval_set_shape] is [(m,)].  Any other rank of the
    value leaves the embedding. *)
Definition find_shapes (fx : matrix num) (intervals : list (num * num))
  : result (list Z * list Z * list Z) :=
  if (length fx =? length intervals)%nat
  then Ok ([], [], [len intervals])
  else Raise OutsideFragment.

(** Everything [_gauss_kronrod_integrate] computes, the locals included. *)
Definition integrate_locals (k : Z) (f : matrix num -> result (matrix num))
           (intervals : list (num * num)) : traced num (locals num) :=
  gk <~ lift (gauss_kronrod jacobi scheme_from_rc k) ;;
  gl <~ lift (gauss_legendre k) ;;
  let sp := sample_points (points gk) intervals in
  fx_gk <~ call f sp ;;
  shapes <~ lift (find_shapes fx_gk intervals) ;;
  let '(domain_shape, range_shape, interval_set_shape) := shapes in
  let fx_gl := map odd_entries fx_gk in
  let diff := zip_with sub (map snd intervals) (map fst intervals) in
  (* the sum over the axes of an empty domain_shape adds nothing up *)
  let alpha := map sqrt (map (fun d => mul d d) diff) in
  _ <~ lift (assert (shape_eqb [len alpha] interval_set_shape)) ;;
  dk <~ lift (dot fx_gk (weights gk)) ;;
  let val_gauss_kronrod := zip_with mul (map (mul half) alpha) dk in
  dl <~ lift (dot fx_gl (weights gl)) ;;
  let val_gauss_legendr := zip_with mul (map (mul half) alpha) dl in
  _ <~ lift (assert (shape_eqb [len val_gauss_kronrod]
                              (range_shape ++ interval_set_shape))) ;;
  _ <~ lift (assert (shape_eqb [len val_gauss_legendr]
                              (range_shape ++ interval_set_shape))) ;;
  let average := zip_with div val_gauss_kronrod alpha in
  let fx_avg_abs :=
    zip_with (fun row av => map (fun y => absolute (sub y av)) row)
             fx_gk average in
  di <~ lift (dot fx_avg_abs (weights gk)) ;;
  let I_tilde := zip_with mul (map (mul half) alpha) di in
  let error_estimate :=
    zip_with mul I_tilde
      (zip_with minimum (map (fun _ => one) I_tilde)
         (map (fun q => power q three_halves)
            (zip_with div
               (map (mul two_hundred)
                  (map absolute
                     (zip_with sub val_gauss_kronrod val_gauss_legendr)))
               I_tilde))) in
  _ <~ lift (assert (shape_eqb [len error_estimate]
                              (range_shape ++ interval_set_shape))) ;;
  tret {| fx_gk := fx_gk;
          val_gauss_kronrod := val_gauss_kronrod;
          val_gauss_legendr := val_gauss_legendr;
          alpha := alpha;
          I_tilde := I_tilde;
          error_estimate := error_estimate;
          domain_shape := domain_shape;
          range_shape := range_shape |}.

(** [_gauss_kronrod_integrate(k, f, intervals)] *)
Definition _gauss_kronrod_integrate (k : Z)
           (f : matrix num -> result (matrix num))
           (intervals : list (num * num))
  : traced num (list num * list num * list num * list num * list Z * list Z) :=
  l <~ integrate_locals k f intervals ;;
  tret (val_gauss_kronrod l, val_gauss_legendr l, alpha l, error_estimate l,
        domain_shape l, range_shape l).

(** The values held by the locals of a call that returns. *)
Record computed (k : Z) (f : matrix num -> result (matrix num))
       (intervals : list (num * num)) (l : locals num)
       (gk gl : LineSegmentScheme num) (dk dl di : list num) : Prop := {
  c_gk : gauss_kronrod jacobi scheme_from_rc k = Ok gk;
  c_gl : gauss_legendre k = Ok gl;
  c_fx : f (sample_points (points gk) intervals) = Ok (fx_gk l);
  c_rows : length (fx_gk l) = length intervals;
  c_alpha : alpha l =
            map sqrt (map (fun d => mul d d)
                          (zip_with sub (map snd intervals)
                                    (map fst intervals)));
  c_dk : dot (fx_gk l) (weights gk) = Ok dk;
  c_dl : dot (map odd_entries (fx_gk l)) (weights gl) = Ok dl;
  c_vk : val_gauss_kronrod l = zip_with mul (map (mul half) (alpha l)) dk;
  c_vl : val_gauss_legendr l = zip_with mul (map (mul half) (alpha l)) dl;
  c_di : dot (zip_with (fun row av => map (fun y => absolute (sub y av)) row)
                       (fx_gk l)
                       (zip_with div (val_gauss_kronrod l) (alpha l)))
             (weights gk) = Ok di;
  c_it : I_tilde l = zip_with mul (map (mul half) (alpha l)) di;
  c_err : error_estimate l =
          zip_with mul (I_tilde l)
            (zip_with minimum (map (fun _ => one) (I_tilde l))
               (map (fun q => power q three_halves)
                  (zip_with div
                     (map (mul two_hundred)
                        (map absolute
                           (zip_with sub (val_gauss_kronrod l)
                                     (val_gauss_legendr l))))
                     (I_tilde l))))
}.
End Integrate.

(** ** Running the model on exact rationals *)

(** Exact rationals as a number type. *)
#[export] Instance Numeric_Q : Numeric Q := {|
  zero := 0%Q;
  add := fun x y => Qred (x + y);
  sub := fun x y => Qred (x - y);
  mul := fun x y => Qred (x * y);
  div := fun x y => Qred (x / y);
  neg := fun x => Qred (- x)
|}.

#[export] Instance Compare_Q : Compare Q := {| leq := Qle_bool |}.

(** Monic recurrence coefficients of the Legendre weight on [-1, 1]:
    [alpha_k = 0], [beta_0 = 2], [beta_k = k^2 / (4 k^2 - 1)]. *)
Definition legendre_beta (k : Z) : Q :=
  if k =? 0 then 2%Q else Qred ((k * k) # Z.to_pos (4 * k * k - 1)).

Definition legendre (L : Z) : result (list Q * list Q) :=
  Ok (map (fun _ => 0%Q) (range 0 L), map legendre_beta (range 0 L)).

(** A rule builder for running [gauss_kronrod] on rationals: the nodes
    of the tridiagonal matrix are irrational, so the builder hands back
    the coefficients [b] as nodes and [a] as weights, unsorted. *)
Definition diagonal_rule (a b : list Q) : result (list Q * list Q) :=
  Ok (b, a).

(** ** Running the model on IEEE binary64 *)

#[export] Instance Numeric_float : Numeric float := {|
  zero := 0%float;
  add := PrimFloat.add;
  sub := PrimFloat.sub;
  mul := PrimFloat.mul;
  div := PrimFloat.div;
  neg := PrimFloat.opp
|}.

(** The order [numpy.argsort] sorts binary64 by: [a] goes before [b] when
    [a < b], or when [b] is a NaN and [a] is not, so that the NaNs come
    last. *)
Definition np_before (a b : float) : bool :=
  PrimFloat.ltb a b || (PrimFloat.is_nan b && negb (PrimFloat.is_nan a)).

(** An entry stays in front of a later one unless the later one goes
    before it (the sort is stable). *)
#[export] Instance Compare_float : Compare float := {|
  leq := fun x y => negb (np_before y x)
|}.

(** [numpy.minimum]: the first argument when it is smaller or a NaN, the
    second otherwise (so a NaN on either side comes out). *)
Definition np_minimum (x y : float) : float :=
  if PrimFloat.ltb x y || PrimFloat.is_nan x then x else y.

(** The integrator's operations on binary64, for a given [pow] of the C
    library. *)
Definition Elementary_float (pow : float -> float -> float)
  : Elementary float := {|
  half := 0.5%float;
  one := 1%float;
  two_hundred := 200%float;
  three_halves := 1.5%float;
  absolute := PrimFloat.abs;
  sqrt := PrimFloat.sqrt;
  power := pow;
  minimum := np_minimum
|}.

(** [x ** 1.5] evaluated as [x * sqrt(x)]: it has the values of C's [pow]
    on NaN, on plus infinity, on the zeros and on negative finite bases,
    and its value up to rounding on the other bases. *)
Definition pow_three_halves (x y : float) : float :=
  PrimFloat.mul x (PrimFloat.sqrt x).

Definition float_of_Z (k : Z) : float := PrimFloat.of_uint63 (Uint63.of_Z k).

(** The Legendre coefficients in binary64. *)
Definition legendre_float (L : Z) : result (list float * list float) :=
  Ok (map (fun _ => 0%float) (range 0 L),
      map (fun k => if k =? 0 then 2%float
                    else PrimFloat.div (float_of_Z (k * k))
                                       (float_of_Z (4 * k * k - 1)))
          (range 0 L)).

(** The three-point Kronrod rule of the one-point Gauss rule, as the
    eigensolver returns it (nodes not in order), and that Gauss rule. *)
Definition rule_of_order_one (a b : list float)
  : result (list float * list float) :=
  Ok ([0%float; (-0x1.8c97ef43f7248p-1)%float; 0x1.8c97ef43f7248p-1%float],
      [0x1.c71c71c71c71cp-1%float; 0x1.1c71c71c71c72p-1%float;
       0x1.1c71c71c71c72p-1%float]).

Definition gauss_legendre_one (k : Z) : result (LineSegmentScheme float) :=
  Ok {| name := "Gauss-Legendre (1)"%string;
        degree := 1;
        weights := [2%float];
        points := [0%float] |}.

(** [gauss_kronrod(1)] on these collaborators. *)
Definition kronrod_order_one : LineSegmentScheme float :=
  {| name := "Gauss-Kronrod (1)"%string;
     degree := 7;
     weights := [0x1.1c71c71c71c72p-1%float; 0x1.c71c71c71c71cp-1%float;
                 0x1.1c71c71c71c72p-1%float];
     points := [(-0x1.8c97ef43f7248p-1)%float; 0%float;
                0x1.8c97ef43f7248p-1%float] |}.

(** Two integrands on binary64: the constant 0 and the square. *)
Definition zero_integrand (sp : matrix float) : result (matrix float) :=
  Ok (map (map (fun _ => 0%float)) sp).

Definition square_integrand (sp : matrix float) : result (matrix float) :=
  Ok (map (map (fun x => PrimFloat.mul x x)) sp).

(** The Kronrod nodes of order one mapped onto [0, 1]. *)
Definition unit_interval_points : matrix float :=
  [[0x1.cda042f0236ep-4%float; 0x1p-1%float; 0x1.c64bf7a1fb924p-1%float]].

(** The value a scheme gives for the integral of the monomial [x^d] over
    [-1, 1]: the weights applied to the powers of the nodes. *)
Definition line_monomial_sum (d : nat) (s : LineSegmentScheme float) : float :=
  weighted_sum (map (fun x => fold_right PrimFloat.mul 1%float (repeat x d))
                    (points s))
               (weights s).

(** A binary64 number that is not negative: a NaN, or [0 <= x]. *)
Definition nonneg_or_nan (x : float) : bool :=
  PrimFloat.is_nan x || PrimFloat.leb 0 x.

(** The same on the decoded number: a NaN, a zero of either sign, or a
    number with the sign bit clear. *)
Definition sf_is_nan (x : spec_float) : bool :=
  match x with S754_nan => true | _ => false end.

Definition sf_nonneg (x : spec_float) : Prop :=
  match x with
  | S754_nan | S754_zero _ => True
  | S754_infinity s | S754_finite s _ _ => s = false
  end.

(** ** Exact real arithmetic *)

#[export] Instance Numeric_R : Numeric R := {|
  zero := 0%R;
  add := Rplus;
  sub := Rminus;
  mul := Rmult;
  div := Rdiv;
  neg := Ropp
|}.

#[export] Instance Compare_R : Compare R := {|
  leq := fun x y => if Rle_dec x y then true else false
|}.

(** [x ** y] on the reals, for a base [x >= 0] and an exponent [y > 0]. *)
Definition Rpow (x y : R) : R :=
  if Rlt_dec 0 x then Rpower x y else 0%R.

#[export] Instance Elementary_R : Elementary R := {|
  half := (1 / 2)%R;
  one := 1%R;
  two_hundred := 200%R;
  three_halves := (3 / 2)%R;
  absolute := Rabs;
  sqrt := R_sqrt.sqrt;
  power := Rpow;
  minimum := Rmin
|}.

(** The map of [-1, 1] onto [lo, hi] in the words of the
    specification: [x(t) = lo + (t + 1) / 2 * (hi - lo)]. *)
Definition affine_map (lo hi t : R) : R :=
  (lo + (t + 1) / 2 * (hi - lo))%R.

(** Collaborators on the reals: the Legendre coefficients for order one,
    Simpson's rule on [-1, 1] as the three-point rule (nodes not in order)
    and the midpoint rule as its one-point companion. *)
Definition legendre_R (L : Z) : result (list R * list R) :=
  Ok ([0; 0; 0]%R, [2; 1 / 3; 4 / 15]%R).

Definition simpson_rule (a b : list R) : result (list R * list R) :=
  Ok ([0; -1; 1]%R, [4 / 3; 1 / 3; 1 / 3]%R).

Definition midpoint_rule (k : Z) : result (LineSegmentScheme R) :=
  Ok {| name := "Gauss-Legendre (1)"%string;
        degree := 1;
        weights := [2%R];
        points := [0%R] |}.

Definition square_R (sp : matrix R) : result (matrix R) :=
  Ok (map (map (fun x => (x * x)%R)) sp).

(** ** [radon] *)

(** The disk scheme object; the name (the formatted parameter) and the
    citation are left out. *)
Record DiskScheme : Type := {
  disk_weights : list R;
  disk_points : list (list R);
  disk_degree : Z
}.

(** Modelled from the spec: [z] of [quadpy.helpers] is not among the
    sources at hand; [z(n)] is the array of the single point at the origin
    of the [n]-dimensional space, the "central" point of the scheme. *)
Definition z (n : nat) : list (list R) := [repeat 0%R n].

(** Modelled from the spec: [untangle] of [quadpy.helpers] is not among
    the sources at hand; it joins the groups of points of [data] and
    repeats the weight of each group once per point of the group (one
    central weight, six copies of the other). *)
Definition untangle (data : list (R * list (list R)))
  : list (list R) * list R :=
  (concat (map snd data),
   concat (map (fun g => repeat (fst g) (length (snd g))) data)).

(** [radon(alpha, symbolic=True)]: exact arithmetic, [frac(x, y)] the
    quotient [x / y]. *)
Definition radon (alpha : R) : DiskScheme :=
  let frac := fun x y : R => (x / y)%R in
  let pi := PI in
  let sqrt := R_sqrt.sqrt in
  let r := sqrt (frac (alpha + 4) (alpha + 6))%R in
  let s := sqrt (frac (alpha + 4) (4 * (alpha + 6)))%R in
  let t := sqrt (frac (3 * (alpha + 4)) (4 * (alpha + 6)))%R in
  let A := frac 4%R ((alpha + 4) ^ 2)%R in
  let B := frac ((alpha + 2) * (alpha + 6))%R (6 * (alpha + 4) ^ 2)%R in
  let data :=
    [ (A, z 2);
      (B, [[r; 0]; [- r; 0]]%R);
      (B, [[s; t]; [- s; t]; [s; - t]; [- s; - t]]%R) ] in
  let '(points, weights) := untangle data in
  let weights := map (fun w => (w * pi)%R) weights in
  {| disk_weights := weights; disk_points := points; disk_degree := 5 |}.

(** [sum] of a list of reals. *)
Definition Rsum (l : list R) : R := fold_right Rplus 0%R l.

(** ** Vocabulary of the further properties *)

(** Two neighbours in strictly ascending order. *)
Definition strictly_ascending {num : Type} {C : Compare num} (u v : num)
  : Prop :=
  leq u v = true /\ leq v u = false.

(** Simpson's rule on rationals, nodes in order, as a rule builder. *)
Definition simpson_rule_Q (a b : list Q) : result (list Q * list Q) :=
  Ok ([-1; 0; 1]%Q, [1 # 3; 4 # 3; 1 # 3]%Q).

(** An integrand that raises, and the identity as an integrand on the
    reals. *)
Definition failing_integrand (sp : matrix float) : result (matrix float) :=
  Raise ValueError.

Definition identity_R (sp : matrix R) : result (matrix R) := Ok sp.

(** The sum a disk scheme forms for the monomial [x^a y^b]: the weights
    applied to the values of the monomial at the points. *)
Definition monomial_sum (a b : nat) (s : DiskScheme) : R :=
  Rsum (zip_with (fun w p => (w * (nth 0 p 0 ^ a * nth 1 p 0 ^ b))%R)
                 (disk_weights s) (disk_points s)).

(** ** Facts about the helpers *)

(** Linear arithmetic with the quotients and remainders by 2 of the index
    computations. *)
Ltac zlia := Z.to_euclidean_division_equations; lia.

Lemma floor_half_eq (x : Z) : floor_half x = x / 2.
Proof. reflexivity. Qed.

Lemma ceil_half_eq (x : Z) : ceil_half x = (x + 1) / 2.
Proof.
  unfold ceil_half, Qceiling, Qfloor, Qopp. cbn [Qnum Qden]. zlia.
Qed.

Lemma range_length (lo hi : Z) : length (range lo hi) = Z.to_nat (hi - lo).
Proof. unfold range. now rewrite length_map, length_seq. Qed.

Lemma in_range (lo hi m : Z) : In m (range lo hi) <-> lo <= m < hi.
Proof.
  unfold range. rewrite in_map_iff. split.
  - intros (i & <- & Hi). apply in_seq in Hi. lia.
  - intros H. exists (Z.to_nat (m - lo)). split; [lia|].
    apply in_seq. lia.
Qed.

Lemma in_arange_down (hi k : Z) : In k (arange_down hi) <-> 0 <= k <= hi.
Proof.
  unfold arange_down. rewrite <- in_rev, in_range. lia.
Qed.

Section ArrayFacts.
Variable A : Type.
Implicit Types (l : list A) (i : Z) (v : A).

Lemma position_ok (n i : Z) :
  0 <= i < n -> position n i = Ok (Z.to_nat i).
Proof.
  intros H. unfold position.
  replace ((0 <=? i) && (i <? n)) with true; [reflexivity|].
  symmetry. apply andb_true_iff. split; [apply Z.leb_le | apply Z.ltb_lt]; lia.
Qed.

Lemma getitem_ok l i :
  0 <= i < len l -> exists v, getitem l i = Ok v.
Proof.
  intros H. unfold getitem. rewrite position_ok by assumption. cbn.
  destruct (nth_error l (Z.to_nat i)) eqn:E; [eauto|].
  apply nth_error_None in E. unfold len in H. lia.
Qed.

Lemma getitem_nth l i v :
  0 <= i < len l -> getitem l i = Ok v <-> nth_error l (Z.to_nat i) = Some v.
Proof.
  intros H. unfold getitem. rewrite position_ok by assumption. cbn.
  destruct (nth_error l (Z.to_nat i)); split; congruence.
Qed.

Lemma getitem_In l i v : getitem l i = Ok v -> In v l.
Proof.
  unfold getitem. destruct (position (len l) i) as [p|]; cbn; [|discriminate].
  destruct (nth_error l p) eqn:E; [|discriminate].
  intros [= <-]. eapply nth_error_In; eauto.
Qed.

Lemma getitem_last l :
  l <> [] -> exists v, getitem l (-1) = Ok v.
Proof.
  intros H. unfold getitem, position.
  assert (0 < len l) by (unfold len; destruct l; [congruence | cbn; lia]).
  replace ((0 <=? -1) && (-1 <? len l)) with false by reflexivity.
  replace ((- len l <=? -1) && (-1 <? 0)) with true.
  2:{ symmetry. apply andb_true_iff. split; [apply Z.leb_le; lia | reflexivity]. }
  cbn. destruct (nth_error l (Z.to_nat (len l + -1))) eqn:E; [eauto|].
  apply nth_error_None in E. unfold len in *. lia.
Qed.

Lemma update_length l p v : length (update l p v) = length l.
Proof.
  revert p. induction l as [|x l IH]; intros [|p]; cbn; auto.
Qed.

Lemma update_firstn l p v (K : nat) :
  (K <= p)%nat -> firstn K (update l p v) = firstn K l.
Proof.
  revert p K. induction l as [|x l IH]; intros [|p] [|K] H; cbn; auto; try lia.
  f_equal. apply IH. lia.
Qed.

Lemma setitem_ok l i v :
  0 <= i < len l -> setitem l i v = Ok (update l (Z.to_nat i) v).
Proof.
  intros H. unfold setitem. now rewrite position_ok.
Qed.

Lemma len_update l p v : len (update l p v) = len l.
Proof. unfold len. now rewrite update_length. Qed.

Lemma put_ok l (idx : list Z) (vals : list A) :
  length vals = length idx ->
  (forall i, In i idx -> 0 <= i < len l) ->
  exists l', put l idx vals = Ok l' /\ len l' = len l.
Proof.
  intros Hl Hi. unfold put. rewrite Hl, Nat.eqb_refl. cbn.
  revert vals Hl l Hi.
  induction idx as [|i idx IH]; intros [|v vals] Hl l Hi; cbn in *;
    try discriminate.
  - eauto.
  - rewrite setitem_ok by auto. cbn.
    destruct (IH vals ltac:(lia) (update l (Z.to_nat i) v)) as (l' & E & L).
    + intros j Hj. rewrite len_update. auto.
    + exists l'. split; [exact E|]. now rewrite L, len_update.
Qed.

Lemma clamp_in (n i : Z) : 0 <= i <= n -> clamp n i = Z.to_nat i.
Proof.
  intros H. unfold clamp. destruct (i <? 0) eqn:E.
  - apply Z.ltb_lt in E. lia.
  - f_equal. lia.
Qed.

Lemma slice_prefix l (k : Z) :
  0 <= k <= len l -> slice l 0 k = firstn (Z.to_nat k) l.
Proof.
  intros H. unfold slice.
  rewrite !clamp_in by (unfold len in *; lia).
  cbn [Z.to_nat skipn]. now rewrite Nat.sub_0_r.
Qed.

Lemma setslice_prefix l (k : Z) (vals : list A) :
  0 <= k <= len l -> length vals = Z.to_nat k ->
  setslice l 0 k vals = Ok (vals ++ skipn (Z.to_nat k) l).
Proof.
  intros H Hv. unfold setslice.
  rewrite !clamp_in by (unfold len in *; lia).
  cbn [Z.to_nat]. rewrite Nat.sub_0_r, Hv, Nat.eqb_refl. cbn.
  reflexivity.
Qed.

Lemma setslice_length l (lo hi : Z) (vals : list A) l' :
  length vals = (clamp (len l) hi - clamp (len l) lo)%nat ->
  (clamp (len l) hi <= length l)%nat ->
  setslice l lo hi vals = Ok l' -> length l' = length l.
Proof.
  intros Hv Hq. unfold setslice. rewrite Hv, Nat.eqb_refl. cbn.
  intros [= <-]. rewrite !length_app, length_firstn, length_skipn. lia.
Qed.
End ArrayFacts.

Lemma firstn_same_entry {A : Type} (K : nat) (l l' : list A) (i : nat) :
  firstn K l = firstn K l' -> (i < K)%nat -> nth_error l i = nth_error l' i.
Proof.
  revert l l' i. induction K as [|K IH]; intros l l' i H Hi; [lia|].
  destruct l as [|x l], l' as [|x' l']; cbn in H; try discriminate.
  - reflexivity.
  - injection H as -> H. destruct i as [|i]; cbn; [reflexivity|].
    apply IH; [exact H | lia].
Qed.

Lemma mapM_ok {A B : Type} (f : A -> result B) (l : list A) :
  (forall x, In x l -> exists y, f x = Ok y) ->
  exists ys, mapM f l = Ok ys /\ length ys = length l.
Proof.
  induction l as [|x l IH]; intros H; cbn.
  - now exists [].
  - destruct (H x (or_introl eq_refl)) as (y & ->). cbn.
    destruct IH as (ys & -> & L); [intros; apply H; now right|]. cbn.
    exists (y :: ys). cbn. now rewrite L.
Qed.

Lemma foldM_invariant {A S : Type} (Inv : S -> Prop) (f : S -> A -> result S)
      (l : list A) :
  (forall s x, In x l -> Inv s -> exists s', f s x = Ok s' /\ Inv s') ->
  forall s, Inv s -> exists s', foldM f l s = Ok s' /\ Inv s'.
Proof.
  induction l as [|x l IH]; intros H s Hs; cbn.
  - eauto.
  - destruct (H s x (or_introl eq_refl) Hs) as (s1 & -> & H1). cbn.
    apply IH; [|exact H1]. intros; apply H; auto. now right.
Qed.

(** ** The Kronrod extension runs to completion and keeps the Gauss prefix *)

Section KronrodFacts.
Context {num : Type} {N : Numeric num}.

Lemma cumsum_from_length (acc : num) (v : list num) :
  length (cumsum_from acc v) = length v.
Proof.
  revert acc. induction v as [|x v IH]; intros acc; cbn; auto.
Qed.

Lemma cumsum_length (v : list num) : length (cumsum v) = length v.
Proof.
  destruct v; cbn; [reflexivity|]. now rewrite cumsum_from_length.
Qed.

Lemma zeros_ok (k : Z) :
  0 <= k -> zeros k = Ok (repeat zero (Z.to_nat k)).
Proof.
  intros H. unfold zeros. destruct (k <? 0) eqn:E; [|reflexivity].
  apply Z.ltb_lt in E. lia.
Qed.


Ltac get_ok :=
  match goal with
  | |- context [getitem ?l ?i] =>
      let v := fresh "v" in
      let E := fresh "E" in
      destruct (@getitem_ok _ l i) as [v E]; [zlia | rewrite E; cbn [bind]]
  end.

Lemma forward_step_ok (n m : Z) (a1 b1 : list num) (st : kstate) :
  1 <= n -> 0 <= m < n - 1 -> kinv n a1 b1 st ->
  exists st', forward_step n st m = Ok st' /\ kinv n a1 b1 st'.
Proof.
  intros Hn Hm. destruct st as [a b s t].
  unfold kinv; cbn [ka kb ks kt]. intros (La & Lb & Ls & Lt & Fa & Fb).
  unfold forward_step. rewrite floor_half_eq.
  match goal with
  | |- context [mapM ?f ?l] => destruct (@mapM_ok _ _ f l) as (terms & E & Lterms)
  end.
  { intros k Hk. apply in_arange_down in Hk. repeat get_ok. eauto. }
  rewrite E; cbn [bind].
  match goal with
  | |- context [put ?l ?idx ?vals] =>
      destruct (@put_ok _ l idx vals) as (s' & E' & Ls')
  end.
  { now rewrite cumsum_length, Lterms, length_map. }
  { intros i Hi. apply in_map_iff in Hi. destruct Hi as (k & <- & Hk).
    apply in_arange_down in Hk. zlia. }
  rewrite E'; cbn [bind]. eexists. split; [reflexivity|].
  cbn [ka kb ks kt]. repeat split; auto. congruence.
Qed.

Lemma backward_step_ok (n m : Z) (a1 b1 : list num) (st : kstate) :
  1 <= n -> n - 1 <= m < 2 * n - 2 -> kinv n a1 b1 st ->
  exists st', backward_step n st m = Ok st' /\ kinv n a1 b1 st'.
Proof.
  intros Hn Hm. destruct st as [a b s t].
  unfold kinv; cbn [ka kb ks kt]. intros (La & Lb & Ls & Lt & Fa & Fb).
  unfold backward_step, last_index, arange. rewrite !floor_half_eq.
  match goal with
  | |- context [mapM ?f ?l] => destruct (@mapM_ok _ _ f l) as (terms & E & Lterms)
  end.
  { intros k Hk. apply in_range in Hk. repeat get_ok. eauto. }
  rewrite E; cbn [bind].
  match goal with
  | |- context [put ?l ?idx ?vals] =>
      destruct (@put_ok _ l idx vals) as (s' & E' & Ls')
  end.
  { now rewrite cumsum_length, Lterms, length_map. }
  { intros i Hi. apply in_map_iff in Hi. destruct Hi as (k & <- & Hk).
    apply in_range in Hk. zlia. }
  rewrite E'; cbn [bind].
  match goal with
  | |- context [getitem ?l (-1)] =>
      destruct (@getitem_last _ l) as (j & Ej)
  end.
  { intros Hnil. apply (f_equal (@length Z)) in Hnil.
    rewrite length_map, range_length in Hnil. cbn in Hnil. zlia. }
  rewrite Ej; cbn [bind].
  apply getitem_In, in_map_iff in Ej. destruct Ej as (k & <- & Hk).
  apply in_range in Hk.
  destruct (m mod 2 =? 0) eqn:Par.
  - repeat get_ok.
    rewrite setitem_ok by zlia. cbn [bind].
    eexists. split; [reflexivity|]. cbn [ka kb ks kt].
    rewrite len_update. repeat split; auto; try congruence.
    rewrite <- Fa. apply update_firstn. unfold kept.
    rewrite floor_half_eq. zlia.
  - repeat get_ok.
    rewrite setitem_ok by zlia. cbn [bind].
    eexists. split; [reflexivity|]. cbn [ka kb ks kt].
    rewrite len_update. repeat split; auto; try congruence.
    rewrite <- Fb. apply update_firstn. unfold kept.
    rewrite floor_half_eq. apply Z.eqb_neq in Par. zlia.
Qed.

(** Shared result on [_r_kronrod]: on inputs of the asserted length and
    [n >= 1] every index stays in range, so the call returns; the arrays
    returned have [2n+1] entries and start with the first
    [floor(3n/2)+1] entries of the inputs. *)
Lemma r_kronrod_spec (n : Z) (a0 b0 : list num) :
  1 <= n ->
  len a0 = ceil_half (3 * n) + 1 -> len b0 = ceil_half (3 * n) + 1 ->
  exists a b, _r_kronrod n a0 b0 = Ok (a, b) /\
    len a = 2 * n + 1 /\ len b = 2 * n + 1 /\
    firstn (kept n) a = firstn (kept n) a0 /\
    firstn (kept n) b = firstn (kept n) b0.
Proof.
  intros Hn Ha Hb. unfold _r_kronrod.
  rewrite Ha, Hb, Z.eqb_refl. cbn [assert bind].
  rewrite ceil_half_eq in *. rewrite !floor_half_eq.
  rewrite !zeros_ok by zlia. cbn [bind].
  set (za := repeat zero (Z.to_nat (2 * n + 1))).
  assert (Lza : len za = 2 * n + 1).
  { unfold len, za. rewrite repeat_length. lia. }
  rewrite (@slice_prefix _ a0) by zlia.
  rewrite (@slice_prefix _ b0) by zlia.
  rewrite !setslice_prefix by (try rewrite length_firstn; unfold len in *; zlia).
  cbn [bind].
  set (a := firstn (Z.to_nat (3 * n / 2 + 1)) a0 ++ skipn _ za).
  set (b := firstn (Z.to_nat ((3 * n + 1) / 2 + 1)) b0 ++ skipn _ za).
  assert (La : len a = 2 * n + 1).
  { unfold len, a in *. rewrite length_app, length_firstn, length_skipn. zlia. }
  assert (Lb : len b = 2 * n + 1).
  { unfold len, b in *. rewrite length_app, length_firstn, length_skipn. zlia. }
  assert (Fa : firstn (kept n) a = firstn (kept n) a0).
  { unfold a, kept. rewrite floor_half_eq.
    rewrite firstn_app, firstn_firstn, Nat.min_id.
    replace (_ - _)%nat with 0%nat
      by (rewrite length_firstn; unfold len in *; zlia).
    cbn. now rewrite app_nil_r. }
  assert (Fb : firstn (kept n) b = firstn (kept n) b0).
  { unfold b, kept. rewrite floor_half_eq.
    rewrite firstn_app, firstn_firstn.
    replace (_ - _)%nat with 0%nat
      by (rewrite length_firstn; unfold len in *; zlia).
    cbn. rewrite app_nil_r. f_equal. zlia. }
  set (z := repeat zero (Z.to_nat (n / 2 + 2))).
  assert (Lz : len z = n / 2 + 2).
  { unfold len, z. rewrite repeat_length. zlia. }
  get_ok. rewrite setitem_ok by zlia. cbn [bind].
  destruct (@foldM_invariant _ _ (kinv n a0 b0) (forward_step n)
              (range 0 (n - 1))) with (s := KState a b z (update z (Z.to_nat 1) v))
    as ([a' b' s' t'] & E1 & I1).
  { intros st m Hm. apply in_range in Hm. apply forward_step_ok; lia. }
  { unfold kinv; cbn [ka kb ks kt]. rewrite len_update. auto 10. }
  rewrite E1; cbn [bind].
  destruct I1 as (La' & Lb' & Ls' & Lt' & Fa' & Fb'). cbn [ka kb ks kt] in *.
  unfold setslice, slice.
  rewrite !clamp_in by zlia. cbn [skipn Z.to_nat].
  rewrite length_firstn, Nat.min_l by (unfold len in *; zlia).
  replace (Z.to_nat (n / 2 + 1 + 1) - Pos.to_nat 1)%nat
    with (Z.to_nat (n / 2 + 1) - 0)%nat by zlia.
  rewrite Nat.eqb_refl. cbn [bind].
  match goal with
  | |- context [KState a' b' ?s1 t'] => set (s1' := s1)
  end.
  assert (Ls1 : len s1' = n / 2 + 2).
  { unfold len, s1' in *.
    rewrite !length_app, !length_firstn, length_skipn. zlia. }
  destruct (@foldM_invariant _ _ (kinv n a0 b0) (backward_step n)
              (range (n - 1) (2 * n - 2))) with (s := KState a' b' s1' t')
    as ([a2 b2 s2 t2] & E2 & I2).
  { intros st m Hm. apply in_range in Hm. apply backward_step_ok; lia. }
  { unfold kinv; cbn [ka kb ks kt]. auto 10. }
  rewrite E2; cbn [bind].
  destruct I2 as (La2 & Lb2 & Ls2 & Lt2 & Fa2 & Fb2). cbn [ka kb ks kt] in *.
  repeat get_ok. rewrite setitem_ok by zlia. cbn [bind].
  do 2 eexists. split; [reflexivity|].
  rewrite len_update. repeat split; auto.
  rewrite <- Fa2. apply update_firstn. unfold kept.
  rewrite floor_half_eq. zlia.
Qed.
End KronrodFacts.


(** ** [gauss_kronrod]: the rule is built, sorted, with its degree tag *)

Section GaussKronrodFacts.
Context {num : Type} {N : Numeric num} {C : Compare num}.
Variable jacobi : Z -> result (list num * list num).
Variable scheme_from_rc : list num -> list num -> result (list num * list num).


Lemma insert_by_perm (key : nat -> num) (i : nat) (l : list nat) :
  Permutation (insert_by key i l) (i :: l).
Proof.
  induction l as [|j l IH]; cbn; [reflexivity|].
  destruct (leq (key i) (key j)); [reflexivity|].
  rewrite IH. apply perm_swap.
Qed.

Lemma sort_indices_perm (x : list num) :
  Permutation (sort_indices x) (seq 0 (length x)).
Proof.
  unfold sort_indices. induction (seq 0 (length x)) as [|i l IH]; cbn.
  - reflexivity.
  - rewrite insert_by_perm. now constructor.
Qed.

Lemma insertion_perm (key : nat -> num) (l : list nat) :
  Permutation (fold_right (insert_by key) [] l) l.
Proof.
  induction l as [|i l IH]; cbn; [reflexivity|].
  rewrite insert_by_perm. now constructor.
Qed.

(** Inserting keeps the order as soon as the new key can be compared with
    the keys already there. *)
Lemma insert_by_sorted (key : nat -> num) (i : nat) (l : list nat) :
  (forall j, In j l ->
     leq (key i) (key j) = true \/ leq (key j) (key i) = true) ->
  Sorted ascending (map key l) ->
  Sorted ascending (map key (insert_by key i l)).
Proof.
  induction l as [|j l IH]; cbn [insert_by map]; intros Htot H.
  - repeat constructor.
  - assert (Hij : leq (key i) (key j) = true \/ leq (key j) (key i) = true)
      by (apply Htot; now left).
    destruct (leq (key i) (key j)) eqn:E; cbn [map].
    + constructor; [exact H|]. constructor. exact E.
    + apply Sorted_inv in H. destruct H as [Hs Hh].
      assert (Hji : ascending (key j) (key i))
        by (unfold ascending; destruct Hij; congruence).
      constructor; [apply IH; [intros j' Hj'; apply Htot; now right | exact Hs]|].
      destruct l as [|j' l]; cbn [insert_by map].
      * constructor. exact Hji.
      * destruct (leq (key i) (key j')) eqn:E'; cbn [map].
        -- constructor. exact Hji.
        -- constructor. now apply HdRel_inv in Hh.
Qed.

(** The sort needs the comparison to be total on the entries of the array
    only. *)
Lemma sort_indices_sorted (x : list num) :
  (forall u v, In u x -> In v x -> leq u v = true \/ leq v u = true) ->
  Sorted ascending (map (fun i => nth i x zero) (sort_indices x)).
Proof.
  intros Htot. unfold sort_indices.
  assert (G : forall l, (forall i, In i l -> (i < length x)%nat) ->
            Sorted ascending
              (map (fun i => nth i x zero)
                   (fold_right (insert_by (fun i => nth i x zero)) [] l))).
  { induction l as [|i l IH]; intros Hl; cbn [fold_right].
    - constructor.
    - apply insert_by_sorted.
      + intros j Hj. apply (Permutation_in _ (insertion_perm _ l)) in Hj.
        apply Htot; apply nth_In; apply Hl; [now left | now right].
      + apply IH. intros j Hj. apply Hl. now right. }
  apply G. intros i Hi. apply in_seq in Hi. lia.
Qed.
End GaussKronrodFacts.

Section GaussKronrodRuns.
Context {num : Type} {N : Numeric num} {C : Compare num}.
Variable jacobi : Z -> result (list num * list num).
Variable scheme_from_rc : list num -> list num -> result (list num * list num).

Lemma take_indices (x : list num) (idx : list nat) :
  (forall i, In i idx -> (i < length x)%nat) ->
  take x (map Z.of_nat idx) = Ok (map (fun i => nth i x zero) idx).
Proof.
  unfold take. induction idx as [|i idx IH]; intros H; cbn; [reflexivity|].
  assert (Hi : (i < length x)%nat) by (apply H; now left).
  assert (E : getitem x (Z.of_nat i) = Ok (nth i x zero)).
  { apply getitem_nth; [unfold len; lia|].
    rewrite Nat2Z.id. now apply nth_error_nth'. }
  rewrite E. cbn. rewrite IH by (intros; apply H; now right). reflexivity.
Qed.

(** Shared result on [gauss_kronrod]: with recurrence coefficients of the
    requested length and a rule builder that answers with as many weights
    as nodes, the call returns the scheme written out here. *)
Lemma gauss_kronrod_runs (n : Z) (al be : list num) :
  1 <= n ->
  jacobi (ceil_half (3 * n) + 1) = Ok (al, be) ->
  len al = ceil_half (3 * n) + 1 -> len be = ceil_half (3 * n) + 1 ->
  (forall a b, _r_kronrod n al be = Ok (a, b) ->
     exists x w, scheme_from_rc a b = Ok (x, w) /\ length x = length w) ->
  exists a b x w sch,
    _r_kronrod n al be = Ok (a, b) /\ scheme_from_rc a b = Ok (x, w) /\
    length x = length w /\
    gauss_kronrod jacobi scheme_from_rc n = Ok sch /\
    degree sch = 2 * (ceil_half (3 * n) + 1) + 1 /\
    points sch = map (fun i => nth i x zero) (sort_indices x) /\
    weights sch = map (fun i => nth i w zero) (sort_indices x).
Proof.
  intros Hn Hj La Lb Hrc.
  destruct (r_kronrod_spec (n := n) al be Hn La Lb) as (a & b & Ek & _).
  destruct (Hrc a b Ek) as (x & w & Es & Lxw).
  assert (Hidx : forall i, In i (sort_indices x) -> (i < length x)%nat).
  { intros i Hi. apply (Permutation_in _ (sort_indices_perm x)) in Hi.
    apply in_seq in Hi. lia. }
  exists a, b, x, w. eexists. split; [exact Ek|]. split; [exact Es|].
  split; [exact Lxw|].
  unfold gauss_kronrod, argsort. rewrite Hj. cbn [bind]. rewrite Ek.
  cbn [bind]. rewrite Es. cbn [bind].
  rewrite !take_indices by (try rewrite <- Lxw; exact Hidx). cbn [bind].
  split; [reflexivity|]. cbn. auto.
Qed.
End GaussKronrodRuns.

(** ** Binary64: the order of the sort and the sign of a result *)

Lemma SFcompare_refl (x : spec_float) :
  SFcompare x x = if sf_is_nan x then None else Some Eq.
Proof.
  destruct x as [[|]|[|]| |[|] m e]; cbn; try reflexivity;
    now rewrite Z.compare_refl, Pos.compare_cont_refl.
Qed.

Lemma is_nan_spec (x : float) : PrimFloat.is_nan x = sf_is_nan (Prim2SF x).
Proof.
  unfold PrimFloat.is_nan. rewrite eqb_spec. unfold SFeqb.
  rewrite SFcompare_refl. now destruct (sf_is_nan (Prim2SF x)).
Qed.

Lemma SFcompare_antisym (x y : spec_float) :
  SFcompare x y = Some Lt -> SFcompare y x = Some Gt.
Proof.
  destruct x as [sx|sx| |sx mx ex], y as [sy|sy| |sy my ey]; cbn;
    try discriminate; try (destruct sx; discriminate || reflexivity);
    try (destruct sy; discriminate || reflexivity).
  - destruct sx, sy; discriminate || reflexivity.
  - assert (Hp : Pos.compare_cont Eq my mx
                 = CompOpp (Pos.compare_cont Eq mx my))
      by (symmetry; apply (Pos.compare_cont_antisym mx my Eq)).
    rewrite (Z.compare_antisym ex ey), Hp.
    destruct sx, sy; try discriminate || reflexivity;
      destruct (ex ?= ey); cbn; try discriminate || reflexivity;
      destruct (Pos.compare_cont Eq mx my); cbn; discriminate || reflexivity.
Qed.

(** Of two numbers at most one goes before the other. *)
Lemma np_before_asym (u v : float) :
  np_before u v = true -> np_before v u = false.
Proof.
  unfold np_before. rewrite !is_nan_spec, !ltb_spec. unfold SFltb.
  destruct (SFcompare (Prim2SF u) (Prim2SF v)) as [[| |]|] eqn:E; cbn.
  - destruct (Prim2SF u), (Prim2SF v); cbn in *; try discriminate.
  - apply SFcompare_antisym in E. rewrite E.
    destruct (Prim2SF u), (Prim2SF v); cbn in *; try discriminate; reflexivity.
  - destruct (Prim2SF u), (Prim2SF v); cbn in *; try discriminate.
  - destruct (Prim2SF u), (Prim2SF v); cbn in *; try discriminate; auto.
Qed.

(** The order of the sort is total on binary64, the NaNs included. *)
Lemma float_order_total (u v : float) : leq u v = true \/ leq v u = true.
Proof.
  cbn [leq Compare_float]. destruct (np_before v u) eqn:E.
  - right. now rewrite (np_before_asym _ _ E).
  - now left.
Qed.

(** With it [argsort] leaves the NaNs at the end, as [numpy.argsort]
    does. *)
Lemma argsort_puts_nan_last :
  argsort [1%float; nan; (-1)%float] = [2; 0; 1] /\
  argsort [1%float; nan] = [0; 1].
Proof. split; vm_compute; reflexivity. Qed.

Lemma nonneg_or_nan_spec (x : float) :
  nonneg_or_nan x = true <-> sf_nonneg (Prim2SF x).
Proof.
  unfold nonneg_or_nan. rewrite is_nan_spec, leb_spec.
  change (Prim2SF 0) with (S754_zero false).
  destruct (Prim2SF x) as [[|]|[|]| |[|] m e]; cbn; intuition congruence.
Qed.

(** Rounding keeps the sign it is given. *)
Lemma binary_round_aux_sign (prec emax : Z) (s : bool) (m e : Z)
      (l : location) :
  match binary_round_aux prec emax s m e l with
  | S754_nan | S754_zero _ => True
  | S754_infinity s' | S754_finite s' _ _ => s' = s
  end.
Proof.
  unfold binary_round_aux.
  destruct (shr_fexp prec emax m e l) as [mrs e'].
  destruct (shr_fexp prec emax _ e' loc_Exact) as [mrs' e''].
  destruct (shr_m mrs'); auto.
  destruct (e'' <=? emax - prec); reflexivity.
Qed.

Lemma binary_round_sign (prec emax : Z) (s : bool) (m : positive) (e : Z) :
  match binary_round prec emax s m e with
  | S754_nan | S754_zero _ => True
  | S754_infinity s' | S754_finite s' _ _ => s' = s
  end.
Proof.
  unfold binary_round. destruct (shl_align _ _ _) as [mz ez].
  apply binary_round_aux_sign.
Qed.

Lemma SFmul_nonneg (prec emax : Z) (x y : spec_float) :
  sf_nonneg x -> sf_nonneg y -> sf_nonneg (SFmul prec emax x y).
Proof.
  destruct x as [sx|sx| |sx mx ex], y as [sy|sy| |sy my ey]; cbn;
    intros Hx Hy; subst; try exact I; try reflexivity.
  pose proof (binary_round_aux_sign prec emax false
                (Z.pos (mx * my)) (ex + ey) loc_Exact) as H.
  unfold sf_nonneg. destruct (binary_round_aux _ _ _ _ _ _); auto.
Qed.

Lemma SFadd_nonneg (prec emax : Z) (x y : spec_float) :
  sf_nonneg x -> sf_nonneg y -> sf_nonneg (SFadd prec emax x y).
Proof.
  destruct x as [sx|sx| |sx mx ex], y as [sy|sy| |sy my ey]; cbn;
    intros Hx Hy; subst; try exact I; try reflexivity.
  - now destruct sx, sy.
  - match goal with
    | |- sf_nonneg (binary_normalize _ _ ?m ?e _) =>
        assert (Hm : 0 < m) by (cbn; lia); destruct m as [|p|p]; try lia
    end.
    cbn [binary_normalize].
    pose proof (binary_round_sign prec emax false p (Z.min ex ey)) as H.
    unfold sf_nonneg. destruct (binary_round _ _ _ _ _); auto.
Qed.

Lemma SFsqrt_nonneg (prec emax : Z) (x : spec_float) :
  sf_nonneg (SFsqrt prec emax x).
Proof.
  destruct x as [sx|[|]| |[|] mx ex]; cbn; auto.
  destruct (SFsqrt_core_binary prec emax (Z.pos mx) ex) as [[mz ez] lz].
  pose proof (binary_round_aux_sign prec emax false mz ez lz) as H.
  unfold sf_nonneg. destruct (binary_round_aux _ _ _ _ _ _); auto.
Qed.

Lemma float_mul_nonneg (x y : float) :
  nonneg_or_nan x = true -> nonneg_or_nan y = true ->
  nonneg_or_nan (x * y) = true.
Proof.
  rewrite !nonneg_or_nan_spec, mul_spec. apply SFmul_nonneg.
Qed.

Lemma float_add_nonneg (x y : float) :
  nonneg_or_nan x = true -> nonneg_or_nan y = true ->
  nonneg_or_nan (x + y) = true.
Proof.
  rewrite !nonneg_or_nan_spec, add_spec. apply SFadd_nonneg.
Qed.

Lemma float_sqrt_nonneg (x : float) :
  nonneg_or_nan (PrimFloat.sqrt x) = true.
Proof. rewrite nonneg_or_nan_spec, sqrt_spec. apply SFsqrt_nonneg. Qed.

Lemma float_abs_nonneg (x : float) : nonneg_or_nan (abs x) = true.
Proof.
  rewrite nonneg_or_nan_spec, abs_spec. now destruct (Prim2SF x).
Qed.

Lemma np_minimum_nonneg (x y : float) :
  nonneg_or_nan x = true -> nonneg_or_nan y = true ->
  nonneg_or_nan (np_minimum x y) = true.
Proof. unfold np_minimum. now destruct (_ || _). Qed.

(** [x * sqrt(x)] is never negative: the root of a negative base is a
    NaN. *)
Lemma pow_three_halves_nonneg (x y : float) :
  nonneg_or_nan (pow_three_halves x y) = true.
Proof.
  unfold pow_three_halves. rewrite nonneg_or_nan_spec, mul_spec, sqrt_spec.
  destruct (Prim2SF x) as [sx|[|]| |[|] mx ex] eqn:Ex;
    try (cbn; auto; fail).
  apply SFmul_nonneg; [reflexivity | apply SFsqrt_nonneg].
Qed.

Lemma fold_left_add_nonneg (l : list float) (acc : float) :
  nonneg_or_nan acc = true -> Forall (fun x => nonneg_or_nan x = true) l ->
  nonneg_or_nan (fold_left PrimFloat.add l acc) = true.
Proof.
  revert acc. induction l as [|x l IH]; intros acc Ha Hl; cbn; [exact Ha|].
  apply IH; [apply float_add_nonneg; [exact Ha | exact (Forall_inv Hl)]
            | exact (Forall_inv_tail Hl)].
Qed.

(** A sum of absolute values under weights that are not negative is not
    negative. *)
Lemma weighted_abs_sum_float_nonneg (g : float -> float)
      (row w : list float) :
  Forall (fun x => nonneg_or_nan x = true) w ->
  nonneg_or_nan (weighted_sum (map (fun y => abs (g y)) row) w) = true.
Proof.
  intros Hw. unfold weighted_sum. apply fold_left_add_nonneg; [reflexivity|].
  revert w Hw. induction row as [|y row IH]; intros [|x w] Hw; cbn;
    try constructor.
  - apply float_mul_nonneg; [apply float_abs_nonneg | exact (Forall_inv Hw)].
  - apply IH. exact (Forall_inv_tail Hw).
Qed.

Lemma nth_error_same_length {A B : Type} (l : list A) (l' : list B)
      (i : nat) (x : A) :
  length l = length l' -> nth_error l i = Some x ->
  exists y, nth_error l' i = Some y.
Proof.
  intros L H. destruct (nth_error l' i) as [y|] eqn:E; [now exists y|].
  apply nth_error_None in E.
  assert (nth_error l i <> None) by congruence.
  apply nth_error_Some in H0. lia.
Qed.

(** ** The claims on the Kronrod extension and on [gauss_kronrod] *)

(** C3. [_r_kronrod]: for [n >= 1] and inputs of length [ceil(3n/2)+1]
    both length assertions pass and the call returns; when the length of
    either input differs from [ceil(3n/2)+1] the call raises the
    [AssertionError] of the precondition. *)
Theorem r_kronrod_contract {num : Type} {N : Numeric num}
        (n : Z) (a0 b0 : list num) :
  (1 <= n -> len a0 = ceil_half (3 * n) + 1 ->
   len b0 = ceil_half (3 * n) + 1 ->
   exists ab, _r_kronrod n a0 b0 = Ok ab) /\
  (len a0 <> ceil_half (3 * n) + 1 \/ len b0 <> ceil_half (3 * n) + 1 ->
   _r_kronrod n a0 b0 = Raise AssertionError).
Proof.
  split.
  - intros Hn Ha Hb.
    destruct (r_kronrod_spec a0 b0 Hn Ha Hb) as (a & b & E & _).
    now exists (a, b).
  - intros H. unfold _r_kronrod.
    destruct (len a0 =? ceil_half (3 * n) + 1) eqn:Ea;
      cbn [assert bind]; [|reflexivity].
    destruct (len b0 =? ceil_half (3 * n) + 1) eqn:Eb;
      cbn [assert bind]; [|reflexivity].
    apply Z.eqb_eq in Ea, Eb. tauto.
Qed.

Lemma r_kronrod_contract_witness :
  (exists ab, _r_kronrod 2 [0; 0; 0; 0]%Q [2; 1 # 3; 4 # 15; 9 # 35]%Q = Ok ab)
  /\ _r_kronrod 2 [0; 0; 0]%Q [2; 1 # 3; 4 # 15; 9 # 35]%Q
     = Raise AssertionError.
Proof.
  split.
  - apply (proj1 (r_kronrod_contract 2 [0; 0; 0; 0]%Q
                                       [2; 1 # 3; 4 # 15; 9 # 35]%Q)).
    + lia.
    + reflexivity.
    + reflexivity.
  - apply (proj2 (r_kronrod_contract 2 [0; 0; 0]%Q
                                       [2; 1 # 3; 4 # 15; 9 # 35]%Q)).
    left. vm_compute. discriminate.
Defined.

(** C4. For [n >= 1] and inputs of the valid length the arrays [a], [b]
    that [_r_kronrod] returns have [2n+1] entries each, and at every index
    below [floor(3n/2)+1] they hold the entry of [alpha0], [beta0]: the
    recursion and the final step write at [floor(3n/2)+1] or beyond. *)
Theorem r_kronrod_keeps_gauss_prefix {num : Type} {N : Numeric num}
        (n : Z) (a0 b0 : list num) :
  1 <= n ->
  len a0 = ceil_half (3 * n) + 1 -> len b0 = ceil_half (3 * n) + 1 ->
  exists a b, _r_kronrod n a0 b0 = Ok (a, b) /\
    len a = 2 * n + 1 /\ len b = 2 * n + 1 /\
    forall i, 0 <= i < floor_half (3 * n) + 1 ->
      exists u v, getitem a0 i = Ok u /\ getitem a i = Ok u /\
                  getitem b0 i = Ok v /\ getitem b i = Ok v.
Proof.
  intros Hn Ha Hb.
  destruct (r_kronrod_spec a0 b0 Hn Ha Hb) as (a & b & E & La & Lb & Fa & Fb).
  exists a, b. repeat split; auto.
  intros i Hi. unfold kept in *.
  rewrite ceil_half_eq in *. rewrite floor_half_eq in *.
  destruct (@getitem_ok _ a0 i) as [u Eu]; [zlia|].
  destruct (@getitem_ok _ b0 i) as [v Ev]; [zlia|].
  exists u, v. repeat split; auto.
  - apply getitem_nth; [zlia|]. apply getitem_nth in Eu; [|zlia].
    rewrite (@firstn_same_entry _ _ _ _ (Z.to_nat i) Fa) by zlia. exact Eu.
  - apply getitem_nth; [zlia|]. apply getitem_nth in Ev; [|zlia].
    rewrite (@firstn_same_entry _ _ _ _ (Z.to_nat i) Fb) by zlia. exact Ev.
Qed.

Lemma r_kronrod_keeps_gauss_prefix_witness :
  exists a b,
    _r_kronrod 2 [0; 0; 0; 0]%Q [2; 1 # 3; 4 # 15; 9 # 35]%Q = Ok (a, b) /\
    len a = 2 * 2 + 1 /\ len b = 2 * 2 + 1 /\
    forall i, 0 <= i < floor_half (3 * 2) + 1 ->
      exists u v, getitem [0; 0; 0; 0]%Q i = Ok u /\ getitem a i = Ok u /\
                  getitem [2; 1 # 3; 4 # 15; 9 # 35]%Q i = Ok v /\
                  getitem b i = Ok v.
Proof.
  apply (@r_kronrod_keeps_gauss_prefix Q _ 2 [0; 0; 0; 0]%Q
                                       [2; 1 # 3; 4 # 15; 9 # 35]%Q).
  - lia.
  - reflexivity.
  - reflexivity.
Defined.

Lemma Qle_bool_total (u v : Q) : Qle_bool u v = true \/ Qle_bool v u = true.
Proof.
  rewrite !Qle_bool_iff. destruct (Qlt_le_dec u v) as [H|H].
  - left. now apply Qlt_le_weak.
  - now right.
Qed.

Lemma diagonal_rule_answers (a b a' b' : list Q) :
  Ok (a', b') = Ok (a, b) -> length a' = length b' ->
  exists x w, diagonal_rule a b = Ok (x, w) /\ length x = length w.
Proof.
  intros [= <- <-] L. exists b', a'. split; [reflexivity | now symmetry].
Qed.

(** The degree tag of [gauss_kronrod(n)] for any [n >= 1]: the code
    writes [2 * L + 1], where [L = ceil(3n/2) + 1] is the number of
    recurrence coefficients requested, two more than [2 * L - 1]. *)
Lemma gauss_kronrod_degree_tag
        {num : Type} {N : Numeric num} {C : Compare num}
        (jacobi : Z -> result (list num * list num))
        (scheme_from_rc : list num -> list num -> result (list num * list num))
        (n : Z) (al be : list num) :
  1 <= n ->
  jacobi (ceil_half (3 * n) + 1) = Ok (al, be) ->
  len al = ceil_half (3 * n) + 1 -> len be = ceil_half (3 * n) + 1 ->
  (forall a b, _r_kronrod n al be = Ok (a, b) ->
     exists x w, scheme_from_rc a b = Ok (x, w) /\ length x = length w) ->
  exists sch, gauss_kronrod jacobi scheme_from_rc n = Ok sch /\
    degree sch = 2 * (ceil_half (3 * n) + 1) + 1 /\
    degree sch = 3 * n + 3 + n mod 2.
Proof.
  intros Hn Hj La Lb Hrc.
  destruct (gauss_kronrod_runs jacobi scheme_from_rc Hn Hj La Lb Hrc)
    as (a & b & x & w & sch & _ & _ & _ & E & D & _).
  exists sch. repeat split; auto.
  rewrite D, ceil_half_eq. zlia.
Qed.

Lemma gauss_kronrod_degree_tag_order_two :
  exists sch, gauss_kronrod legendre diagonal_rule 2 = Ok sch /\
    degree sch = 2 * (ceil_half (3 * 2) + 1) + 1 /\
    degree sch = 3 * 2 + 3 + 2 mod 2.
Proof.
  apply (@gauss_kronrod_degree_tag Q _ _ legendre diagonal_rule 2
           [0; 0; 0; 0]%Q [2; 1 # 3; 4 # 15; 9 # 35]%Q).
  - lia.
  - reflexivity.
  - reflexivity.
  - reflexivity.
  - intros a b H.
    apply (@diagonal_rule_answers a b [0; 0; 0; 0; 0]%Q
             [2; 1 # 3; 4 # 15; 9 # 35; 1 # 3]%Q); [exact H | reflexivity].
Defined.

(** At [n = 2], with [L = 4] coefficients, the degree tag is 9, where
    [2 * L - 1] and [3n + 1] are both 7. *)
Lemma gauss_kronrod_degree_order_two :
  exists sch, gauss_kronrod legendre diagonal_rule 2 = Ok sch /\
    degree sch = 9 /\
    degree sch <> 2 * (ceil_half (3 * 2) + 1) - 1 /\
    degree sch <> 3 * 2 + 1.
Proof.
  eexists. split; [vm_compute; reflexivity|].
  cbn [degree]. repeat split; vm_compute; discriminate.
Qed.

(** C1.  The code does not declare the degree of the claim.  For [n = 1]
    [gauss_kronrod] requests [L = 3] recurrence coefficients and tags the
    three-point rule it returns with the degree [2 * L + 1 = 7], neither
    [2 * L - 1 = 5] nor [3n + 1 = 4].  The tag overstates the rule: the
    value it gives for the integral of [x^6] over [-1, 1] is below 0.25,
    where the integral is [2/7 > 0.28]. *)
Theorem gauss_kronrod_degree_overstated :
  exists sch, gauss_kronrod legendre_float rule_of_order_one 1 = Ok sch /\
    ceil_half (3 * 1) + 1 = 3 /\
    degree sch = 7 /\
    degree sch <> 2 * (ceil_half (3 * 1) + 1) - 1 /\
    degree sch <> 3 * 1 + 1 /\
    length (points sch) = 3%nat /\
    PrimFloat.ltb (line_monomial_sum 6 sch) 0.25 = true /\
    PrimFloat.ltb 0.28125 (2 / 7) = true.
Proof.
  exists kronrod_order_one. split; [vm_compute; reflexivity|].
  split; [reflexivity|]. split; [reflexivity|].
  split; [vm_compute; discriminate|]. split; [vm_compute; discriminate|].
  split; [reflexivity|]. split; vm_compute; reflexivity.
Qed.

Lemma combine_map_indices {A B : Type} (f : nat -> A) (g : nat -> B)
      (idx : list nat) :
  combine (map f idx) (map g idx) = map (fun i => (f i, g i)) idx.
Proof.
  induction idx as [|i idx IH]; cbn; [reflexivity|]. now rewrite IH.
Qed.

Lemma combine_as_map {A B : Type} (x : list A) (w : list B) (dx : A) (dw : B) :
  length x = length w ->
  combine x w = map (fun i => (nth i x dx, nth i w dw)) (seq 0 (length x)).
Proof.
  revert w. induction x as [|a x IH]; intros [|b w] L; cbn in *;
    try discriminate; [reflexivity|].
  f_equal. rewrite <- seq_shift, map_map. apply IH. lia.
Qed.

(** C8. For [n >= 1] nodes and weights of the rule of [gauss_kronrod(n)]
    are the builder's nodes and weights read through one and the same
    permutation of the indices, so that every weight stays with its node;
    and the nodes are in ascending order as soon as any two of the
    builder's nodes can be compared (on binary64 in the order of the sort,
    which puts the NaNs last, they always can). *)
Theorem gauss_kronrod_sorted_aligned
        {num : Type} {N : Numeric num} {C : Compare num}
        (jacobi : Z -> result (list num * list num))
        (scheme_from_rc : list num -> list num -> result (list num * list num))
        (n : Z) (al be : list num) :
  1 <= n ->
  jacobi (ceil_half (3 * n) + 1) = Ok (al, be) ->
  len al = ceil_half (3 * n) + 1 -> len be = ceil_half (3 * n) + 1 ->
  (forall a b, _r_kronrod n al be = Ok (a, b) ->
     exists x w, scheme_from_rc a b = Ok (x, w) /\ length x = length w) ->
  exists a b x w sch,
    _r_kronrod n al be = Ok (a, b) /\ scheme_from_rc a b = Ok (x, w) /\
    gauss_kronrod jacobi scheme_from_rc n = Ok sch /\
    (exists idx, Permutation idx (seq 0 (length x)) /\
       points sch = map (fun i => nth i x zero) idx /\
       weights sch = map (fun i => nth i w zero) idx) /\
    Permutation (combine (points sch) (weights sch)) (combine x w) /\
    ((forall u v, In u x -> In v x -> leq u v = true \/ leq v u = true) ->
     Sorted ascending (points sch)).
Proof.
  intros Hn Hj La Lb Hrc.
  destruct (gauss_kronrod_runs jacobi scheme_from_rc Hn Hj La Lb Hrc)
    as (a & b & x & w & sch & Ek & Es & Lxw & E & _ & P & W).
  exists a, b, x, w, sch. repeat split; auto.
  - exists (sort_indices x). repeat split; auto. apply sort_indices_perm.
  - rewrite P, W, combine_map_indices.
    rewrite (combine_as_map x w zero zero Lxw).
    apply Permutation_map, sort_indices_perm.
  - intros Htot. rewrite P. now apply sort_indices_sorted.
Qed.

Lemma rule_of_order_one_answers (a b : list float) :
  exists x w, rule_of_order_one a b = Ok (x, w) /\ length x = length w.
Proof. eexists. eexists. split; reflexivity. Qed.

Lemma gauss_kronrod_sorted_aligned_witness :
  exists a b x w sch,
    _r_kronrod 1 [0; 0; 0]%float
               [2; float_of_Z 1 / float_of_Z 3;
                float_of_Z 4 / float_of_Z 15]%float = Ok (a, b) /\
    rule_of_order_one a b = Ok (x, w) /\
    gauss_kronrod legendre_float rule_of_order_one 1 = Ok sch /\
    (exists idx, Permutation idx (seq 0 (length x)) /\
       points sch = map (fun i => nth i x zero) idx /\
       weights sch = map (fun i => nth i w zero) idx) /\
    Permutation (combine (points sch) (weights sch)) (combine x w) /\
    Sorted ascending (points sch).
Proof.
  destruct (@gauss_kronrod_sorted_aligned float _ _
              legendre_float rule_of_order_one 1
              [0; 0; 0]%float
              [2; float_of_Z 1 / float_of_Z 3;
               float_of_Z 4 / float_of_Z 15]%float)
    as (a & b & x & w & sch & Ek & Es & E & A & P & S).
  - lia.
  - reflexivity.
  - reflexivity.
  - reflexivity.
  - intros a b _. exact (rule_of_order_one_answers a b).
  - exists a, b, x, w, sch. repeat split; auto.
    apply S. intros u v _ _. apply float_order_total.
Defined.

(** ** The integrator: what a returning call has computed *)

Lemma nth_error_zip_with {X Y W : Type} (op : X -> Y -> W)
      (u : list X) (v : list Y) (i : nat) :
  nth_error (zip_with op u v) i =
  match nth_error u i, nth_error v i with
  | Some x, Some y => Some (op x y)
  | _, _ => None
  end.
Proof.
  revert v i. induction u as [|x u IH]; intros [|y v] [|i]; cbn; auto.
  - now destruct (nth_error u i).
Qed.

Lemma zip_with_length {X Y W : Type} (op : X -> Y -> W)
      (u : list X) (v : list Y) :
  length (zip_with op u v) = Nat.min (length u) (length v).
Proof.
  revert v. induction u as [|x u IH]; intros [|y v]; cbn; auto.
Qed.

Lemma zip_with_map_same {X Y Z W : Type} (op : Y -> Z -> W)
      (g : X -> Y) (h : X -> Z) (l : list X) :
  zip_with op (map g l) (map h l) = map (fun x => op (g x) (h x)) l.
Proof.
  induction l as [|x l IH]; cbn; [reflexivity|]. now rewrite IH.
Qed.

Lemma mapM_entries {A B : Type} (f : A -> result B) (l : list A)
      (ys : list B) :
  mapM f l = Ok ys ->
  length ys = length l /\
  forall i x, nth_error l i = Some x ->
    exists y, f x = Ok y /\ nth_error ys i = Some y.
Proof.
  revert ys. induction l as [|a l IH]; intros ys; cbn.
  - intros [= <-]. split; [reflexivity|]. intros [|i] x; discriminate.
  - destruct (f a) as [y|] eqn:Ea; cbn; [|discriminate].
    destruct (mapM f l) as [ys'|] eqn:El; cbn; [|discriminate].
    intros [= <-]. destruct (IH ys' eq_refl) as [L H].
    split; [cbn; now rewrite L|].
    intros [|i] x; cbn.
    + intros [= <-]. eauto.
    + apply H.
Qed.

Section IntegrateFacts.
Context {num : Type} {N : Numeric num} {C : Compare num} {E : Elementary num}.
Variable jacobi : Z -> result (list num * list num).
Variable scheme_from_rc : list num -> list num -> result (list num * list num).
Variable gauss_legendre : Z -> result (LineSegmentScheme num).

Lemma dot_entries (m : matrix num) (w d : list num) :
  dot m w = Ok d ->
  length d = length m /\
  forall i row, nth_error m i = Some row ->
    nth_error d i = Some (weighted_sum row w).
Proof.
  intros H. apply mapM_entries in H. destruct H as [L H].
  split; [exact L|]. intros i row Hr.
  destruct (H i row Hr) as (y & Ey & Hy).
  destruct (length row =? length w)%nat; [|discriminate].
  now injection Ey as <-.
Qed.


Lemma integrate_locals_inv (k : Z) (f : matrix num -> result (matrix num))
      (intervals : list (num * num)) (log log' : list (matrix num))
      (l : locals num) :
  integrate_locals jacobi scheme_from_rc gauss_legendre k f intervals log
  = (Ok l, log') ->
  exists gk gl dk dl di,
    computed jacobi scheme_from_rc gauss_legendre k f intervals l gk gl dk dl di /\
    log' = log ++ [sample_points (points gk) intervals].
Proof.
  unfold integrate_locals, tbind, lift, call, tret.
  destruct (gauss_kronrod jacobi scheme_from_rc k) as [gk|] eqn:Egk;
    [|discriminate].
  destruct (gauss_legendre k) as [gl|] eqn:Egl; [|discriminate].
  destruct (f (sample_points (points gk) intervals)) as [fx|] eqn:Ef;
    [|discriminate].
  unfold find_shapes.
  destruct (length fx =? length intervals)%nat eqn:Er; [|discriminate].
  apply Nat.eqb_eq in Er.
  match goal with
  | |- context [assert ?c] => destruct (assert c); [|discriminate]
  end.
  destruct (dot fx (weights gk)) as [dk|] eqn:Edk; [|discriminate].
  destruct (dot (map odd_entries fx) (weights gl)) as [dl|] eqn:Edl;
    [|discriminate].
  cbn [app].
  match goal with
  | |- context [assert ?c] => destruct (assert c); [|discriminate]
  end.
  match goal with
  | |- context [assert ?c] => destruct (assert c); [|discriminate]
  end.
  match goal with
  | |- context [dot ?m ?w] =>
      lazymatch m with
      | zip_with _ _ _ => destruct (dot m w) as [di|] eqn:Edi; [|discriminate]
      end
  end.
  match goal with
  | |- context [assert ?c] => destruct (assert c); [|discriminate]
  end.
  intros [= <- <-]. exists gk, gl, dk, dl, di.
  split; [|reflexivity]. constructor; cbn; auto.
Qed.

Lemma integrate_inv (k : Z) (f : matrix num -> result (matrix num))
      (intervals : list (num * num)) (log log' : list (matrix num))
      (vks vgs als errs : list num) (ds rs : list Z) :
  _gauss_kronrod_integrate jacobi scheme_from_rc gauss_legendre k f
                           intervals log
  = (Ok (vks, vgs, als, errs, ds, rs), log') ->
  exists l,
    integrate_locals jacobi scheme_from_rc gauss_legendre k f intervals log
    = (Ok l, log') /\
    vks = val_gauss_kronrod l /\ vgs = val_gauss_legendr l /\
    als = alpha l /\ errs = error_estimate l.
Proof.
  unfold _gauss_kronrod_integrate, tbind, tret.
  destruct (integrate_locals _ _ _ _ _ _ _) as [[l|e] lg]; [|discriminate].
  intros [= <- <- <- <- <- <- <-]. exists l. auto.
Qed.

(** Every array of a returning call has one entry per interval. *)
Lemma computed_lengths k f intervals l gk gl dk dl di :
  computed jacobi scheme_from_rc gauss_legendre k f intervals l gk gl dk dl di ->
  length (alpha l) = length intervals /\
  length (val_gauss_kronrod l) = length intervals /\
  length (val_gauss_legendr l) = length intervals /\
  length (I_tilde l) = length intervals /\
  length (error_estimate l) = length intervals.
Proof.
  intros H.
  assert (La : length (alpha l) = length intervals).
  { rewrite (c_alpha H), !length_map, zip_with_length, !length_map. lia. }
  assert (Lk : length (val_gauss_kronrod l) = length intervals).
  { rewrite (c_vk H), zip_with_length, length_map, La.
    rewrite (proj1 (@dot_entries _ _ _ (c_dk H))), (c_rows H). lia. }
  assert (Ll : length (val_gauss_legendr l) = length intervals).
  { rewrite (c_vl H), zip_with_length, length_map, La.
    rewrite (proj1 (@dot_entries _ _ _ (c_dl H))), length_map, (c_rows H). lia. }
  assert (Li : length (I_tilde l) = length intervals).
  { rewrite (c_it H), zip_with_length, length_map, La.
    rewrite (proj1 (@dot_entries _ _ _ (c_di H))), !zip_with_length.
    rewrite (c_rows H), Lk, La. lia. }
  repeat split; auto.
  rewrite (c_err H), !zip_with_length, !length_map, !zip_with_length.
  rewrite !length_map, zip_with_length, Lk, Ll, Li. lia.
Qed.

(** Entry [i] of [I_tilde] and of the error estimate, from the entries
    [i] of the two estimates, of [alpha] and of the evaluations. *)
Lemma integrate_entry k f intervals l gk gl dk dl di
      (i : nat) (vk vg al : num) (row : list num) :
  computed jacobi scheme_from_rc gauss_legendre k f intervals l gk gl dk dl di ->
  nth_error (val_gauss_kronrod l) i = Some vk ->
  nth_error (val_gauss_legendr l) i = Some vg ->
  nth_error (alpha l) i = Some al ->
  nth_error (fx_gk l) i = Some row ->
  let I := mul (mul half al)
               (weighted_sum (map (fun y => absolute (sub y (div vk al))) row)
                             (weights gk)) in
  nth_error (I_tilde l) i = Some I /\
  nth_error (error_estimate l) i =
  Some (mul I (minimum one
                 (power (div (mul two_hundred (absolute (sub vk vg))) I)
                        three_halves))).
Proof.
  intros H Hk Hg Ha Hr I.
  assert (HI : nth_error (I_tilde l) i = Some I).
  { rewrite (c_it H), nth_error_zip_with, nth_error_map, Ha. cbn.
    rewrite (proj2 (@dot_entries _ _ _ (c_di H)) i
               (map (fun y => absolute (sub y (div vk al))) row)).
    - reflexivity.
    - rewrite !nth_error_zip_with, Hr, Hk, Ha. reflexivity. }
  split; [exact HI|].
  rewrite (c_err H). rewrite !nth_error_zip_with, !nth_error_map.
  rewrite !nth_error_zip_with, !nth_error_map, !nth_error_zip_with.
  rewrite HI, Hk, Hg. reflexivity.
Qed.
End IntegrateFacts.

Lemma dot_row_length {num : Type} {N : Numeric num}
      (m : matrix num) (w d : list num) (i : nat) (row : list num) :
  dot m w = Ok d -> nth_error m i = Some row -> length row = length w.
Proof.
  intros H Hr. apply mapM_entries in H. destruct H as [_ H].
  destruct (H i row Hr) as (y & Ey & _).
  destruct (length row =? length w)%nat eqn:E; [|discriminate].
  now apply Nat.eqb_eq.
Qed.

Lemma odd_entries_length {num : Type} (row : list num) :
  length (odd_entries row) = Nat.div2 (length row).
Proof.
  assert (H : forall l : list num,
             length (odd_entries l) = Nat.div2 (length l) /\
             forall x, length (odd_entries (x :: l))
                       = Nat.div2 (length (x :: l))).
  { induction l as [|y l [IH1 IH2]].
    - split; [reflexivity | intros x; reflexivity].
    - split; [apply IH2|]. intros x. cbn [odd_entries length Nat.div2].
      now rewrite IH1. }
  apply H.
Qed.


(** ** The claims on the integrator *)

Section IntegrateTrace.
Context {num : Type} {N : Numeric num} {C : Compare num} {E : Elementary num}.
Variable jacobi : Z -> result (list num * list num).
Variable scheme_from_rc : list num -> list num -> result (list num * list num).
Variable gauss_legendre : Z -> result (LineSegmentScheme num).

End IntegrateTrace.


(** C6. In a returning call, for an interval whose [I_tilde] is not zero,
    the error estimate is
    [I_tilde * min(1, (200 * |val_kronrod - val_gauss| / I_tilde) ** 1.5)]
    with [I_tilde = 0.5 * alpha * sum_j w_j |f(x_j) - val_kronrod / alpha|]
    over the Kronrod weights. *)
Theorem error_estimate_formula
        {num : Type} {N : Numeric num} {C : Compare num} {E : Elementary num}
        (jacobi : Z -> result (list num * list num))
        (scheme_from_rc : list num -> list num -> result (list num * list num))
        (gauss_legendre : Z -> result (LineSegmentScheme num))
        (k : Z) (f : matrix num -> result (matrix num))
        (intervals : list (num * num)) (log log' : list (matrix num))
        (vks vgs als errs : list num) (ds rs : list Z) :
  _gauss_kronrod_integrate jacobi scheme_from_rc gauss_legendre k f
                           intervals log
  = (Ok (vks, vgs, als, errs, ds, rs), log') ->
  exists gk fx,
    gauss_kronrod jacobi scheme_from_rc k = Ok gk /\
    f (sample_points (points gk) intervals) = Ok fx /\
    length fx = length intervals /\ length vks = length intervals /\
    length vgs = length intervals /\ length als = length intervals /\
    length errs = length intervals /\
    forall i vk vg al row,
      nth_error vks i = Some vk -> nth_error vgs i = Some vg ->
      nth_error als i = Some al -> nth_error fx i = Some row ->
      let I_tilde :=
        mul (mul half al)
            (weighted_sum (map (fun y => absolute (sub y (div vk al))) row)
                          (weights gk)) in
      I_tilde <> zero ->
      nth_error errs i =
      Some (mul I_tilde
              (minimum one
                 (power (div (mul two_hundred (absolute (sub vk vg)))
                             I_tilde)
                        three_halves))).
Proof.
  intros H. apply integrate_inv in H.
  destruct H as (l & El & -> & -> & -> & ->).
  apply integrate_locals_inv in El.
  destruct El as (gk & gl & dk & dl & di & Hc & _).
  destruct (computed_lengths Hc) as (La & Lk & Ll & Li & Le).
  exists gk, (fx_gk l). split; [exact (c_gk Hc)|]. split; [exact (c_fx Hc)|].
  split; [exact (c_rows Hc)|]. repeat (split; [assumption|]).
  intros i vk vg al row Hk Hg Ha Hr I _.
  exact (proj2 (integrate_entry i Hc Hk Hg Ha Hr)).
Qed.


Lemma error_estimate_formula_witness :
  nth_error [0x1.024171f659e4ep-2%float] 0 =
  Some (0x1.024171f659e4ep-2 *
        np_minimum 1
          (pow_three_halves
             (200 * abs (0x1.5555555555556p-2 - 0x1p-2)
              / 0x1.024171f659e4ep-2) 1.5))%float.
Proof.
  destruct (@error_estimate_formula float _ _
              (Elementary_float pow_three_halves)
              legendre_float rule_of_order_one gauss_legendre_one
              1 square_integrand [(0%float, 1%float)] []
              [unit_interval_points]
              [0x1.5555555555556p-2%float] [0x1p-2%float] [1%float]
              [0x1.024171f659e4ep-2%float] [] [])
    as (gk & fx & Egk & Efx & _ & _ & _ & _ & _ & H).
  - vm_compute. reflexivity.
  - injection Egk as <-. injection Efx as <-.
    apply (H 0%nat 0x1.5555555555556p-2%float 0x1p-2%float 1%float
             (map (fun x => PrimFloat.mul x x)
                  [0x1.cda042f0236ep-4%float; 0x1p-1%float;
                   0x1.c64bf7a1fb924p-1%float])).
    + reflexivity.
    + reflexivity.
    + reflexivity.
    + vm_compute. reflexivity.
    + vm_compute. intros H0. apply (f_equal PrimFloat.is_zero) in H0.
      vm_compute in H0. discriminate.
Defined.

(** *** No guard on a zero [I_tilde] *)

Lemma float_eqb_zero (x : float) :
  PrimFloat.eqb x 0%float = true -> x = 0%float \/ x = (-0)%float.
Proof.
  rewrite FloatAxioms.eqb_spec. intros H.
  rewrite <- (SF2Prim_Prim2SF x).
  change (Prim2SF 0) with (S754_zero false) in H.
  destruct (Prim2SF x) as [[|]|[|]| |[|] m e] eqn:Ex; cbn in H;
    try discriminate.
  - now right.
  - now left.
Qed.

(** C2 as stated fails: for the integrand 0 on [0, 1] [I_tilde] is 0 and
    the error estimate returned is NaN, which is not 0. *)
Lemma zero_integrand_error_is_nan :
  exists l log',
    integrate_locals (E := Elementary_float pow_three_halves)
                     legendre_float rule_of_order_one gauss_legendre_one
                     1 zero_integrand [(0%float, 1%float)] []
    = (Ok l, log') /\
    _gauss_kronrod_integrate (E := Elementary_float pow_three_halves)
                     legendre_float rule_of_order_one gauss_legendre_one
                     1 zero_integrand [(0%float, 1%float)] []
    = (Ok (val_gauss_kronrod l, val_gauss_legendr l, alpha l,
           error_estimate l, [], []), log') /\
    I_tilde l = [0%float] /\
    error_estimate l = [nan] /\
    PrimFloat.eqb nan 0 = false /\ nan <> 0%float.
Proof.
  eexists. eexists. split; [vm_compute; reflexivity|].
  cbn [val_gauss_kronrod val_gauss_legendr alpha error_estimate I_tilde].
  split; [vm_compute; reflexivity|].
  repeat split.
  intros H. apply (f_equal PrimFloat.is_nan) in H. vm_compute in H.
  discriminate.
Qed.

(** C2, as the code has it.  The division by [I_tilde] is not guarded:
    in a returning call on binary64, for an interval whose [I_tilde]
    compares equal to 0 and whose two estimates do not differ
    ([|val_kronrod - val_gauss|] equal to 0), the error estimate is the
    NaN of 0/0, for any [pow] that maps a NaN to a NaN. *)
Theorem unguarded_zero_I_tilde
        (pow : float -> float -> float)
        (jacobi : Z -> result (list float * list float))
        (scheme_from_rc :
           list float -> list float -> result (list float * list float))
        (gauss_legendre : Z -> result (LineSegmentScheme float))
        (k : Z) (f : matrix float -> result (matrix float))
        (intervals : list (float * float)) (log log' : list (matrix float))
        (vks vgs als errs : list float) (ds rs : list Z)
        (gk : LineSegmentScheme float) (fx : matrix float) :
  pow nan 1.5%float = nan ->
  _gauss_kronrod_integrate (E := Elementary_float pow)
                           jacobi scheme_from_rc gauss_legendre k f
                           intervals log
  = (Ok (vks, vgs, als, errs, ds, rs), log') ->
  gauss_kronrod jacobi scheme_from_rc k = Ok gk ->
  f (sample_points (E := Elementary_float pow) (points gk) intervals)
  = Ok fx ->
  forall i vk vg al row,
    nth_error vks i = Some vk -> nth_error vgs i = Some vg ->
    nth_error als i = Some al -> nth_error fx i = Some row ->
    let I_tilde :=
      (0.5 * al * weighted_sum (map (fun y => abs (y - vk / al)) row)
                               (weights gk))%float in
    PrimFloat.eqb I_tilde 0 = true ->
    PrimFloat.eqb (abs (vk - vg)) 0 = true ->
    nth_error errs i = Some nan.
Proof.
  intros Hpow H Egk Efx i vk vg al row Hk Hg Ha Hr I HI Hd.
  apply integrate_inv in H. destruct H as (l & El & -> & -> & -> & ->).
  apply integrate_locals_inv in El.
  destruct El as (gk' & gl & dk & dl & di & Hc & _).
  pose proof (c_gk Hc) as G. rewrite Egk in G. injection G as <-.
  pose proof (c_fx Hc) as G. rewrite Efx in G. injection G as ->.
  rewrite (proj2 (integrate_entry i Hc Hk Hg Ha Hr)).
  f_equal. cbn [mul div sub add half one two_hundred three_halves absolute
                power minimum Numeric_float Elementary_float].
  fold I.
  destruct (float_eqb_zero HI) as [EI | EI];
    destruct (float_eqb_zero Hd) as [Ed | Ed];
    rewrite EI, Ed;
    match goal with
    | |- context [pow ?q _] => change q with nan
    end;
    rewrite Hpow; reflexivity.
Qed.

Lemma unguarded_zero_I_tilde_witness :
  nth_error [nan] 0 = Some nan.
Proof.
  apply (@unguarded_zero_I_tilde pow_three_halves
           legendre_float rule_of_order_one gauss_legendre_one
           1 zero_integrand [(0%float, 1%float)] []
           [unit_interval_points]
           [0%float] [0%float] [1%float] [nan] [] []
           kronrod_order_one [[0%float; 0%float; 0%float]]
           eq_refl
           ltac:(vm_compute; reflexivity)
           ltac:(vm_compute; reflexivity)
           ltac:(vm_compute; reflexivity)
           0%nat 0%float 0%float 1%float [0%float; 0%float; 0%float]).
  - reflexivity.
  - reflexivity.
  - reflexivity.
  - reflexivity.
  - vm_compute. reflexivity.
  - vm_compute. reflexivity.
Defined.

(** C7 as stated fails: the error estimate returned for the integrand 0
    on [0, 1] is NaN, and [0 <= NaN] does not hold. *)
Lemma zero_integrand_error_not_nonnegative :
  exists e,
    _gauss_kronrod_integrate (E := Elementary_float pow_three_halves)
                     legendre_float rule_of_order_one gauss_legendre_one
                     1 zero_integrand [(0%float, 1%float)] []
    = (Ok ([0%float], [0%float], [1%float], [e], [], []),
       [unit_interval_points]) /\
    PrimFloat.leb 0 e = false.
Proof.
  exists nan. split; vm_compute; reflexivity.
Qed.

(** C7, as the code has it.  On binary64, in a returning call whose
    Kronrod weights are not negative, no entry of the error estimate is
    negative: every entry is a NaN or [>= 0].  This holds for any [pow]
    whose value at the exponent 1.5 is never negative (C's [pow] gives a
    NaN for a negative finite base). *)
Theorem error_estimate_never_negative
        (pow : float -> float -> float)
        (jacobi : Z -> result (list float * list float))
        (scheme_from_rc :
           list float -> list float -> result (list float * list float))
        (gauss_legendre : Z -> result (LineSegmentScheme float))
        (k : Z) (f : matrix float -> result (matrix float))
        (intervals : list (float * float)) (log log' : list (matrix float))
        (vks vgs als errs : list float) (ds rs : list Z)
        (gk : LineSegmentScheme float) :
  (forall x, nonneg_or_nan (pow x 1.5%float) = true) ->
  _gauss_kronrod_integrate (E := Elementary_float pow)
                           jacobi scheme_from_rc gauss_legendre k f
                           intervals log
  = (Ok (vks, vgs, als, errs, ds, rs), log') ->
  gauss_kronrod jacobi scheme_from_rc k = Ok gk ->
  Forall (fun w => PrimFloat.leb 0 w = true) (weights gk) ->
  length errs = length intervals /\
  forall i e, nth_error errs i = Some e ->
    PrimFloat.is_nan e = true \/ PrimFloat.leb 0 e = true.
Proof.
  intros Hpow H Egk Hw.
  apply integrate_inv in H. destruct H as (l & El & -> & -> & -> & ->).
  apply integrate_locals_inv in El.
  destruct El as (gk' & gl & dk & dl & di & Hc & _).
  pose proof (c_gk Hc) as G. rewrite Egk in G. injection G as <-.
  destruct (computed_lengths Hc) as (La & Lk & Ll & Li & Le).
  split; [exact Le|].
  intros i e He.
  destruct (nth_error_same_length _ (val_gauss_kronrod l) i
              (eq_trans Le (eq_sym Lk)) He) as [vk Hk].
  destruct (nth_error_same_length _ (val_gauss_legendr l) i
              (eq_trans Le (eq_sym Ll)) He) as [vg Hg].
  destruct (nth_error_same_length _ (alpha l) i
              (eq_trans Le (eq_sym La)) He) as [al Ha].
  destruct (nth_error_same_length _ (fx_gk l) i
              (eq_trans Le (eq_sym (c_rows Hc))) He) as [row Hr].
  rewrite (proj2 (integrate_entry i Hc Hk Hg Ha Hr)) in He.
  injection He as <-.
  apply orb_true_iff. fold (nonneg_or_nan).
  cbn [mul div sub add half one two_hundred three_halves absolute
           power minimum Numeric_float Elementary_float].
  assert (Hal : nonneg_or_nan al = true).
  { rewrite (c_alpha Hc), nth_error_map in Ha.
    match type of Ha with
    | option_map _ ?o = _ => destruct o; cbn [option_map] in Ha
    end; [|discriminate].
    injection Ha as <-. apply float_sqrt_nonneg. }
  assert (Hw' : Forall (fun w => nonneg_or_nan w = true) (weights gk)).
  { apply (Forall_impl _ (P := fun w => PrimFloat.leb 0 w = true));
      [|exact Hw].
    intros w E. unfold nonneg_or_nan. rewrite E. apply orb_true_r. }
  apply float_mul_nonneg.
  - apply float_mul_nonneg; [now apply float_mul_nonneg|].
    exact (weighted_abs_sum_float_nonneg
             (fun y => (y - vk / al)%float) row Hw').
  - apply np_minimum_nonneg; [reflexivity | apply Hpow].
Qed.

Lemma error_estimate_never_negative_witness :
  length [0x1.024171f659e4ep-2%float] = length [(0%float, 1%float)] /\
  forall i e, nth_error [0x1.024171f659e4ep-2%float] i = Some e ->
    PrimFloat.is_nan e = true \/ PrimFloat.leb 0 e = true.
Proof.
  assert (Hw : Forall (fun w => PrimFloat.leb 0 w = true)
                      (weights kronrod_order_one))
    by (repeat constructor).
  assert (Er : _gauss_kronrod_integrate
                 (E := Elementary_float pow_three_halves)
                 legendre_float rule_of_order_one gauss_legendre_one
                 1 square_integrand [(0%float, 1%float)] []
               = (Ok ([0x1.5555555555556p-2%float], [0x1p-2%float],
                      [1%float], [0x1.024171f659e4ep-2%float], [], []),
                  [unit_interval_points]))
    by (vm_compute; reflexivity).
  assert (Egk : gauss_kronrod legendre_float rule_of_order_one 1
                = Ok kronrod_order_one) by (vm_compute; reflexivity).
  exact (@error_estimate_never_negative pow_three_halves
           legendre_float rule_of_order_one gauss_legendre_one
           1 square_integrand [(0%float, 1%float)] []
           [unit_interval_points]
           [0x1.5555555555556p-2%float] [0x1p-2%float] [1%float]
           [0x1.024171f659e4ep-2%float] [] []
           kronrod_order_one
           (fun x => pow_three_halves_nonneg x 1.5%float) Er Egk Hw).
Defined.

(** *** Exact arithmetic *)

(** C9. On the reals the sample point the integrator forms for a node [t]
    and an interval [(lo, hi)], [lo * (0.5 * (1 - t)) + hi * (0.5 * (1 + t))],
    is the affine map [lo + (t + 1) / 2 * (hi - lo)] of the specification;
    the array handed to the integrand holds these points, one row per
    interval. *)
Theorem sample_points_affine (pts : list R) (intervals : list (R * R)) :
  sample_points pts intervals =
  map (fun iv => map (affine_map (fst iv) (snd iv)) pts) intervals /\
  forall lo hi t : R,
    add (mul lo (mul half (sub one t))) (mul hi (mul half (add one t)))
    = affine_map lo hi t.
Proof.
  assert (P : forall lo hi t : R,
             add (mul lo (mul half (sub one t)))
                 (mul hi (mul half (add one t)))
             = affine_map lo hi t).
  { intros lo hi t. unfold affine_map. cbn. field. }
  split; [|exact P].
  unfold sample_points, outer. rewrite !map_map.
  rewrite zip_with_map_same. apply map_ext. intros [lo hi].
  cbn [fst snd]. rewrite !map_map, zip_with_map_same.
  apply map_ext. intros t. apply P.
Qed.

Lemma fold_left_Rplus_nonneg (l : list R) (acc : R) :
  (0 <= acc)%R -> Forall (fun x => (0 <= x)%R) l ->
  (0 <= fold_left Rplus l acc)%R.
Proof.
  revert acc. induction l as [|x l IH]; intros acc Ha Hl; cbn; [exact Ha|].
  inversion Hl; subst. apply IH; [lra | assumption].
Qed.

Lemma weighted_abs_sum_nonneg (g : R -> R) (row w : list R) :
  Forall (fun x => (0 <= x)%R) w ->
  (0 <= weighted_sum (map (fun y => Rabs (g y)) row) w)%R.
Proof.
  intros Hw. unfold weighted_sum. apply fold_left_Rplus_nonneg; [cbn; lra|].
  revert w Hw. induction row as [|y row IH]; intros [|x w] Hw; cbn;
    try constructor.
  - inversion Hw; subst. apply Rmult_le_pos; [apply Rabs_pos | assumption].
  - inversion Hw; subst. now apply IH.
Qed.

Lemma Rpow_nonneg (x y : R) : (0 <= Rpow x y)%R.
Proof.
  unfold Rpow. destruct (Rlt_dec 0 x); [|lra].
  left. unfold Rpower. apply exp_pos.
Qed.

(** Reduction that leaves the operations of the reals alone. *)
Ltac rcbv :=
  cbv - [Rplus Rminus Rmult Rdiv Rinv Ropp IZR Rle_dec Rlt_dec Rabs
         R_sqrt.sqrt Rmin Rpower Rpow R0 R1].

(** Case analysis on the sign under every absolute value of the goal. *)
Ltac split_abs :=
  repeat match goal with
         | |- context [Rabs ?x] =>
             unfold Rabs at 1;
             destruct (Rcase_abs x); [try (exfalso; lra) | try (exfalso; lra)]
         end.

Lemma simpson_kronrod :
  gauss_kronrod legendre_R simpson_rule 1 =
  Ok {| name := "Gauss-Kronrod (1)"%string; degree := 7;
        weights := [1 / 3; 4 / 3; 1 / 3]%R; points := [-1; 0; 1]%R |}.
Proof.
  destruct (@r_kronrod_spec R _ 1 [0; 0; 0]%R [2; 1 / 3; 4 / 15]%R)
    as (a & b & Ek & _); [lia | reflexivity | reflexivity |].
  unfold gauss_kronrod, legendre_R. cbn [bind]. rewrite Ek. cbn [bind].
  unfold simpson_rule. cbn [bind].
  unfold argsort, sort_indices.
  cbn [length seq fold_right insert_by nth leq Compare_R].
  destruct (Rle_dec (-1) 1); [|exfalso; lra].
  cbn [insert_by nth leq Compare_R].
  destruct (Rle_dec 0 (-1)); [exfalso; lra|].
  destruct (Rle_dec 0 1); [|exfalso; lra].
  rcbv. reflexivity.
Qed.

Lemma simpson_call :
  _gauss_kronrod_integrate legendre_R simpson_rule midpoint_rule 1
                           square_R [(0, 1)]%R []
  = (Ok ([1 / 3], [1 / 4], [1],
         [2 / 9 * Rmin 1 (Rpow 75 (3 / 2))], [], [])%R,
     [[[0; 1 / 2; 1]]]%R).
Proof.
  unfold _gauss_kronrod_integrate, integrate_locals, tbind, lift, call, tret.
  rewrite simpson_kronrod. rcbv.
  assert (S : R_sqrt.sqrt ((1 - 0) * (1 - 0)) = 1%R).
  { replace ((1 - 0) * (1 - 0))%R with (1 * 1)%R by ring.
    apply sqrt_square. lra. }
  rewrite !S. split_abs.
  repeat match goal with
         | |- (_, _) = (_, _) => apply f_equal2
         | |- Ok _ = Ok _ => apply f_equal
         | |- _ :: _ = _ :: _ => apply f_equal2
         | |- @nil _ = @nil _ => reflexivity
         end; try lra.
  match goal with
  | |- (?a * Rmin 1 (Rpow ?q ?y))%R = _ =>
      replace q with 75%R by (field_simplify; lra);
      replace a with (2 / 9)%R by lra
  end.
  reflexivity.
Qed.

Lemma simpson_evaluations :
  square_R (sample_points [-1; 0; 1]%R [(0, 1)]%R)
  = Ok [[0; 1 / 4; 1]]%R.
Proof.
  rcbv.
  repeat match goal with
         | |- Ok _ = Ok _ => apply f_equal
         | |- _ :: _ = _ :: _ => apply f_equal2
         | |- @nil _ = @nil _ => reflexivity
         end; lra.
Qed.

(** ** The Radon scheme *)

(** C10. With [alpha + 4] and [alpha + 6] not zero, the weights of
    [radon(alpha)] in exact arithmetic add up to pi: the central weight
    [A = 4 / (alpha + 4)^2] and six copies of
    [B = (alpha + 2)(alpha + 6) / (6 (alpha + 4)^2)], each times pi, with
    [A + 6 B = 1]; the scheme has seven points and seven weights. *)
Theorem radon_weights_sum_to_pi (alpha : R) :
  (alpha + 4 <> 0)%R -> (alpha + 6 <> 0)%R ->
  let A := (4 / (alpha + 4) ^ 2)%R in
  let B := ((alpha + 2) * (alpha + 6) / (6 * (alpha + 4) ^ 2))%R in
  disk_weights (radon alpha)
  = [A * PI; B * PI; B * PI; B * PI; B * PI; B * PI; B * PI]%R /\
  (A + 6 * B = 1)%R /\
  Rsum (disk_weights (radon alpha)) = PI /\
  length (disk_points (radon alpha)) = 7%nat /\
  length (disk_weights (radon alpha)) = 7%nat.
Proof.
  intros H4 H6 A B.
  assert (W : disk_weights (radon alpha)
              = [A * PI; B * PI; B * PI; B * PI; B * PI; B * PI; B * PI]%R)
    by reflexivity.
  assert (AB : (A + 6 * B = 1)%R) by (unfold A, B; field; exact H4).
  split; [exact W|]. split; [exact AB|]. split; [|split].
  - rewrite W. unfold Rsum. cbn [fold_right].
    replace (A * PI + (B * PI + (B * PI + (B * PI + (B * PI +
             (B * PI + (B * PI + 0)))))))%R
      with ((A + 6 * B) * PI)%R by ring.
    rewrite AB. ring.
  - reflexivity.
  - rewrite W. reflexivity.
Qed.

Lemma radon_weights_sum_to_pi_witness :
  disk_weights (radon 0)
  = [4 / (0 + 4) ^ 2 * PI;
     (0 + 2) * (0 + 6) / (6 * (0 + 4) ^ 2) * PI;
     (0 + 2) * (0 + 6) / (6 * (0 + 4) ^ 2) * PI;
     (0 + 2) * (0 + 6) / (6 * (0 + 4) ^ 2) * PI;
     (0 + 2) * (0 + 6) / (6 * (0 + 4) ^ 2) * PI;
     (0 + 2) * (0 + 6) / (6 * (0 + 4) ^ 2) * PI;
     (0 + 2) * (0 + 6) / (6 * (0 + 4) ^ 2) * PI]%R /\
  (4 / (0 + 4) ^ 2 + 6 * ((0 + 2) * (0 + 6) / (6 * (0 + 4) ^ 2)) = 1)%R /\
  Rsum (disk_weights (radon 0)) = PI /\
  length (disk_points (radon 0)) = 7%nat /\
  length (disk_weights (radon 0)) = 7%nat.
Proof.
  apply (@radon_weights_sum_to_pi 0%R).
  - lra.
  - lra.
Defined.

(** * Further properties of the code *)

(** ** [_r_kronrod]: when it returns, and how it fails *)

(** A call of [_r_kronrod] that returns had [n >= 1] and inputs of the
    asserted length: the assertions reject other lengths, [numpy.zeros]
    rejects [n = -1] and [b[n + 1]] is out of range for [n = 0]. *)
Lemma r_kronrod_returns_inv {num : Type} {N : Numeric num}
      (n : Z) (a0 b0 : list num) (ab : list num * list num) :
  _r_kronrod n a0 b0 = Ok ab ->
  1 <= n /\ len a0 = ceil_half (3 * n) + 1 /\ len b0 = ceil_half (3 * n) + 1.
Proof.
  unfold _r_kronrod.
  destruct (len a0 =? ceil_half (3 * n) + 1) eqn:Ea;
    cbn [assert bind]; [|discriminate].
  destruct (len b0 =? ceil_half (3 * n) + 1) eqn:Eb;
    cbn [assert bind]; [|discriminate].
  apply Z.eqb_eq in Ea, Eb. intros H.
  destruct (Z_le_gt_dec 1 n) as [Hn|Hn]; [auto|exfalso].
  rewrite ceil_half_eq in Ea, Eb.
  assert (Hc : n = 0 \/ n = -1) by (unfold len in Ea; zlia).
  destruct Hc as [-> | ->].
  - destruct a0 as [|x [|? ?]];
      try (unfold len in Ea; cbn [length] in Ea; zlia).
    destruct b0 as [|y [|? ?]];
      try (unfold len in Eb; cbn [length] in Eb; zlia).
    vm_compute in H. discriminate.
  - vm_compute in H. discriminate.
Qed.

(** X1. [_r_kronrod(n, a0, b0)] returns exactly when [n >= 1] and both
    inputs have [ceil(3n/2) + 1] entries. *)
Theorem r_kronrod_returns_iff {num : Type} {N : Numeric num}
        (n : Z) (a0 b0 : list num) :
  (exists ab, _r_kronrod n a0 b0 = Ok ab) <->
  1 <= n /\ len a0 = ceil_half (3 * n) + 1 /\ len b0 = ceil_half (3 * n) + 1.
Proof.
  split.
  - intros [ab H]. exact (r_kronrod_returns_inv _ _ _ H).
  - intros (Hn & Ha & Hb).
    destruct (r_kronrod_spec a0 b0 Hn Ha Hb) as (a & b & E & _).
    now exists (a, b).
Qed.

(** X2. With inputs of the asserted length a non-positive order is not
    caught by the assertions: [n = 0] (one-entry inputs) fails with the
    [IndexError] of [b[n + 1]], [n = -1] (empty inputs) with the
    [ValueError] of [numpy.zeros(-1)]; below that no length can match and
    the [AssertionError] is raised. *)
Theorem r_kronrod_nonpositive_order {num : Type} {N : Numeric num}
        (n : Z) (a0 b0 : list num) :
  n <= 0 ->
  (n = 0 -> len a0 = 1 -> len b0 = 1 ->
   _r_kronrod n a0 b0 = Raise IndexError) /\
  (n = -1 -> len a0 = 0 -> len b0 = 0 ->
   _r_kronrod n a0 b0 = Raise ValueError) /\
  (n <= -2 -> _r_kronrod n a0 b0 = Raise AssertionError).
Proof.
  intros Hn. repeat split.
  - intros -> Ea Eb.
    destruct a0 as [|x [|? ?]];
      try (unfold len in Ea; cbn [length] in Ea; lia).
    destruct b0 as [|y [|? ?]];
      try (unfold len in Eb; cbn [length] in Eb; lia).
    vm_compute. reflexivity.
  - intros -> Ea Eb.
    destruct a0; [|unfold len in Ea; cbn [length] in Ea; lia].
    destruct b0; [|unfold len in Eb; cbn [length] in Eb; lia].
    vm_compute. reflexivity.
  - intros H. unfold _r_kronrod.
    destruct (len a0 =? ceil_half (3 * n) + 1) eqn:Ea;
      cbn [assert bind]; [|reflexivity].
    apply Z.eqb_eq in Ea. rewrite ceil_half_eq in Ea.
    unfold len in Ea. zlia.
Qed.

Lemma r_kronrod_nonpositive_order_witness :
  _r_kronrod 0 [0%Q] [2%Q] = Raise IndexError /\
  _r_kronrod (-1) (@nil Q) (@nil Q) = Raise ValueError /\
  _r_kronrod (-2) [0%Q] [2%Q] = Raise AssertionError.
Proof.
  split; [|split].
  - apply (proj1 (@r_kronrod_nonpositive_order Q _ 0 [0%Q] [2%Q]
                    ltac:(lia))); reflexivity.
  - apply (proj1 (proj2 (@r_kronrod_nonpositive_order Q _ (-1) [] []
                           ltac:(lia)))); reflexivity.
  - apply (proj2 (proj2 (@r_kronrod_nonpositive_order Q _ (-2) [0%Q] [2%Q]
                           ltac:(lia)))). lia.
Defined.

(** X4. No entry of [a0] beyond the first [floor(3n/2) + 1] is read:
    changing the last entry of an [a0] of [floor(3n/2) + 2] entries (the
    asserted length when [n] is odd) does not change the outcome. *)
Theorem r_kronrod_ignores_last_alpha {num : Type} {N : Numeric num}
        (n : Z) (l b0 : list num) (x y : num) :
  len l = floor_half (3 * n) + 1 ->
  _r_kronrod n (l ++ [x]) b0 = _r_kronrod n (l ++ [y]) b0.
Proof.
  intros Hl. unfold _r_kronrod.
  replace (len (l ++ [y])) with (len (l ++ [x]))
    by (unfold len; now rewrite !length_app).
  assert (S : forall v : num,
             slice (l ++ [v]) 0 (floor_half (3 * n) + 1) = l).
  { intros v. rewrite slice_prefix.
    - rewrite <- Hl. unfold len. rewrite Nat2Z.id.
      rewrite firstn_app, Nat.sub_diag, firstn_all. cbn.
      now rewrite app_nil_r.
    - unfold len in *. rewrite length_app. cbn [length]. lia. }
  rewrite !S. reflexivity.
Qed.

Lemma r_kronrod_ignores_last_alpha_witness :
  _r_kronrod 1 ([0; 0] ++ [5])%Q [2; 1 # 3; 4 # 15]%Q
  = _r_kronrod 1 ([0; 0] ++ [7])%Q [2; 1 # 3; 4 # 15]%Q.
Proof.
  apply (@r_kronrod_ignores_last_alpha Q _ 1 [0; 0]%Q
           [2; 1 # 3; 4 # 15]%Q 5%Q 7%Q).
  reflexivity.
Defined.

Lemma foldM_preserves {A S : Type} (P : S -> Prop) (f : S -> A -> result S)
      (l : list A) :
  (forall s x s', In x l -> f s x = Ok s' -> P s -> P s') ->
  forall s s', foldM f l s = Ok s' -> P s -> P s'.
Proof.
  induction l as [|x l IH]; intros H s s'; cbn.
  - now intros [= <-].
  - destruct (f s x) as [s1|] eqn:E; cbn; [|discriminate].
    intros H1 Hs. apply (IH (fun s0 y s2 Hy => H s0 y s2 (or_intror Hy))
                            s1 s' H1).
    apply (H s x s1 (or_introl eq_refl) E Hs).
Qed.

Lemma setitem_inv {A : Type} (l l' : list A) (i : Z) (v : A) :
  setitem l i v = Ok l' -> 0 <= i -> l' = update l (Z.to_nat i) v.
Proof.
  unfold setitem, position. intros H Hi.
  destruct ((0 <=? i) && (i <? len l)) eqn:E1; cbn in H.
  - now injection H as <-.
  - replace ((- len l <=? i) && (i <? 0)) with false in H.
    + discriminate.
    + symmetry. apply andb_false_iff. right. apply Z.ltb_ge. exact Hi.
Qed.

Section KronrodBeta.
Context {num : Type} {N : Numeric num}.

(** The first loop leaves [a] and [b] as they are. *)
Lemma forward_step_frame (n m : Z) (st st' : kstate) :
  forward_step n st m = Ok st' -> ka st' = ka st /\ kb st' = kb st.
Proof.
  destruct st as [a b s t]. unfold forward_step.
  destruct (mapM _ _) as [terms|]; cbn [bind]; [|discriminate].
  destruct (put _ _ _) as [s'|]; cbn [bind]; [|discriminate].
  intros [= <-]. auto.
Qed.

(** The second loop writes [b] at [ceil(3n/2) + 1] or beyond. *)
Lemma backward_step_beta (n m : Z) (st st' : kstate) :
  1 <= n -> n - 1 <= m ->
  backward_step n st m = Ok st' ->
  length (kb st') = length (kb st) /\
  firstn (Z.to_nat (ceil_half (3 * n) + 1)) (kb st')
  = firstn (Z.to_nat (ceil_half (3 * n) + 1)) (kb st).
Proof.
  intros Hn Hm. destruct st as [a b s t]. unfold backward_step, last_index.
  destruct (mapM _ _) as [terms|]; cbn [bind]; [|discriminate].
  destruct (put _ _ _) as [s'|]; cbn [bind]; [|discriminate].
  destruct (getitem (map _ _) (-1)) as [j|]; cbn [bind]; [|discriminate].
  destruct (m mod 2 =? 0) eqn:Par.
  - repeat match goal with
           | |- context [bind (getitem ?l ?i) _] =>
               destruct (getitem l i); cbn [bind]; [|discriminate]
           end.
    destruct (setitem a _ _); cbn [bind]; [|discriminate].
    intros [= <-]. auto.
  - repeat match goal with
           | |- context [bind (getitem ?l ?i) _] =>
               destruct (getitem l i); cbn [bind]; [|discriminate]
           end.
    destruct (setitem b _ _) as [b'|] eqn:Eb; cbn [bind]; [|discriminate].
    intros [= <-]. cbn [kb].
    rewrite floor_half_eq in Eb. apply setitem_inv in Eb; [|zlia].
    subst b'. split; [apply update_length|].
    apply update_firstn. rewrite ceil_half_eq.
    apply Z.eqb_neq in Par. zlia.
Qed.
End KronrodBeta.

(** X3. For [n >= 1] and inputs of the asserted length the array [b]
    returned by [_r_kronrod] starts with the whole of [b0]: all
    [ceil(3n/2) + 1] input entries are kept, the recursion fills in only
    the entries after them. *)
Theorem r_kronrod_extends_beta {num : Type} {N : Numeric num}
        (n : Z) (a0 b0 : list num) :
  1 <= n ->
  len a0 = ceil_half (3 * n) + 1 -> len b0 = ceil_half (3 * n) + 1 ->
  exists a b, _r_kronrod n a0 b0 = Ok (a, b) /\
    firstn (length b0) b = b0.
Proof.
  intros Hn Ha Hb.
  destruct (r_kronrod_spec a0 b0 Hn Ha Hb) as (a & b & E & _).
  exists a, b. split; [exact E|].
  revert E. unfold _r_kronrod.
  rewrite Ha, Hb, Z.eqb_refl. cbn [assert bind].
  rewrite !zeros_ok by (rewrite ?floor_half_eq; zlia). cbn [bind].
  set (za := repeat zero (Z.to_nat (2 * n + 1))).
  assert (Lza : len za = 2 * n + 1).
  { unfold len, za. rewrite repeat_length. lia. }
  assert (Hc : 0 <= ceil_half (3 * n) + 1 <= 2 * n + 1)
    by (rewrite ceil_half_eq; zlia).
  assert (Hf : 0 <= floor_half (3 * n) + 1 <= ceil_half (3 * n) + 1)
    by (rewrite ceil_half_eq, floor_half_eq; zlia).
  rewrite (@slice_prefix _ a0) by lia.
  rewrite (@slice_prefix _ b0) by lia.
  rewrite !setslice_prefix
    by (first [lia | rewrite length_firstn; unfold len in Ha, Hb; lia]).
  cbn [bind].
  replace (firstn (Z.to_nat (ceil_half (3 * n) + 1)) b0) with b0
    by (symmetry; apply firstn_all2; unfold len in Hb; lia).
  set (a1 := firstn _ a0 ++ skipn _ za).
  set (b1 := b0 ++ skipn _ za).
  assert (F1 : firstn (Z.to_nat (ceil_half (3 * n) + 1)) b1 = b0).
  { unfold b1. rewrite firstn_app.
    replace (_ - _)%nat with 0%nat by (unfold len in Hb; lia).
    cbn [firstn]. rewrite app_nil_r. apply firstn_all2.
    unfold len in Hb. lia. }
  destruct (getitem b1 (n + 1)) as [bn1|]; cbn [bind]; [|discriminate].
  destruct (setitem _ 1 bn1) as [t1|]; cbn [bind]; [|discriminate].
  destruct (foldM (forward_step n) _ _) as [[a2 b2 s2 t2]|] eqn:E1;
    cbn [bind]; [|discriminate].
  assert (B2 : b2 = b1).
  { apply (@foldM_preserves _ _ (fun st => kb st = b1)) in E1;
      [exact E1 | | reflexivity].
    intros s x s' _ Hs P. apply forward_step_frame in Hs.
    destruct Hs as [_ ->]. exact P. }
  subst b2.
  destruct (setslice s2 _ _ _) as [s3|]; cbn [bind]; [|discriminate].
  destruct (foldM (backward_step n) _ _) as [[a4 b4 s4 t4]|] eqn:E2;
    cbn [bind]; [|discriminate].
  assert (B4 : firstn (Z.to_nat (ceil_half (3 * n) + 1)) b4 = b0).
  { apply (@foldM_preserves _ _
             (fun st => firstn (Z.to_nat (ceil_half (3 * n) + 1)) (kb st)
                        = b0)) in E2; [exact E2 | | exact F1].
    intros s x s' Hx Hs P. apply in_range in Hx.
    apply backward_step_beta in Hs; [|lia|lia].
    destruct Hs as [_ ->]. exact P. }
  repeat match goal with
         | |- context [bind (getitem ?l ?i) _] =>
             destruct (getitem l i); cbn [bind]; [|discriminate]
         end.
  destruct (setitem a4 _ _); cbn [bind]; [|discriminate].
  intros [= _ <-].
  replace (length b0) with (Z.to_nat (ceil_half (3 * n) + 1))
    by (unfold len in Hb; lia).
  exact B4.
Qed.

Lemma r_kronrod_extends_beta_witness :
  exists a b,
    _r_kronrod 3 [0; 0; 0; 0; 0; 0]%Q
               [2; 1 # 3; 4 # 15; 9 # 35; 16 # 63; 25 # 99]%Q = Ok (a, b) /\
    firstn (length [2; 1 # 3; 4 # 15; 9 # 35; 16 # 63; 25 # 99]%Q) b
    = [2; 1 # 3; 4 # 15; 9 # 35; 16 # 63; 25 # 99]%Q.
Proof.
  apply (@r_kronrod_extends_beta Q _ 3 [0; 0; 0; 0; 0; 0]%Q
           [2; 1 # 3; 4 # 15; 9 # 35; 16 # 63; 25 # 99]%Q).
  - lia.
  - reflexivity.
  - reflexivity.
Defined.

(** ** [gauss_kronrod]: orders it accepts, nodes already in order *)

Lemma take_length {A : Type} (l : list A) (idx : list Z) (vs : list A) :
  take l idx = Ok vs -> length vs = length idx.
Proof.
  intros H. now apply mapM_entries in H.
Qed.

(** X5. A call of [gauss_kronrod(n)] that returns had [n >= 1], whatever
    the collaborators answer; the scheme returned has one point per node
    of the rule builder and as many weights as points. *)
Theorem gauss_kronrod_returns_inv
        {num : Type} {N : Numeric num} {C : Compare num}
        (jacobi : Z -> result (list num * list num))
        (scheme_from_rc : list num -> list num -> result (list num * list num))
        (n : Z) (sch : LineSegmentScheme num) :
  gauss_kronrod jacobi scheme_from_rc n = Ok sch ->
  1 <= n /\
  exists al be a b x w,
    jacobi (ceil_half (3 * n) + 1) = Ok (al, be) /\
    _r_kronrod n al be = Ok (a, b) /\
    scheme_from_rc a b = Ok (x, w) /\
    length (points sch) = length x /\
    length (weights sch) = length (points sch).
Proof.
  unfold gauss_kronrod.
  destruct (jacobi _) as [[al be]|] eqn:Ej; cbn [bind]; [|discriminate].
  destruct (_r_kronrod n al be) as [[a b]|] eqn:Ek; cbn [bind];
    [|discriminate].
  destruct (scheme_from_rc a b) as [[x w]|] eqn:Es; cbn [bind];
    [|discriminate].
  destruct (take x _) as [ps|] eqn:Ep; cbn [bind]; [|discriminate].
  destruct (take w _) as [ws|] eqn:Ew; cbn [bind]; [|discriminate].
  intros [= <-]. cbn [points weights].
  split; [exact (proj1 (r_kronrod_returns_inv _ _ _ Ek))|].
  exists al, be, a, b, x, w. repeat split; auto.
  - rewrite (take_length _ _ Ep). unfold argsort. rewrite length_map.
    rewrite (Permutation_length (sort_indices_perm x)). apply length_seq.
  - now rewrite (take_length _ _ Ep), (take_length _ _ Ew).
Qed.

Lemma gauss_kronrod_returns_inv_witness :
  1 <= 2 /\
  exists al be a b x w,
    legendre (ceil_half (3 * 2) + 1) = Ok (al, be) /\
    _r_kronrod 2 al be = Ok (a, b) /\
    diagonal_rule a b = Ok (x, w) /\
    length [9 # 35; 4 # 15; 1 # 3; 1 # 3; 2]%Q = length x /\
    length [0; 0; 0; 0; 0]%Q = length [9 # 35; 4 # 15; 1 # 3; 1 # 3; 2]%Q.
Proof.
  apply (@gauss_kronrod_returns_inv Q _ _ legendre diagonal_rule 2
           {| name := "Gauss-Kronrod (2)"%string; degree := 9;
              weights := [0; 0; 0; 0; 0]%Q;
              points := [9 # 35; 4 # 15; 1 # 3; 1 # 3; 2]%Q |}).
  vm_compute. reflexivity.
Defined.

Section SortedNodes.
Context {num : Type} {N : Numeric num} {C : Compare num}.

Lemma strictly_ascending_neighbours (x : list num) (i : nat) :
  Sorted strictly_ascending x -> (S i < length x)%nat ->
  leq (nth i x zero) (nth (S i) x zero) = true.
Proof.
  intros H. revert i. induction H as [|u x Hs IH Hh]; intros i Hi.
  - cbn in Hi. lia.
  - destruct i as [|i].
    + destruct Hh as [|v x' [Hv _]]; [cbn in Hi; lia | exact Hv].
    + cbn [nth]. apply IH. cbn in Hi. lia.
Qed.

Lemma sort_seq_in_order (key : nat -> num) (k s : nat) :
  (forall i, (s <= i)%nat -> (S i < s + k)%nat ->
             leq (key i) (key (S i)) = true) ->
  fold_right (insert_by key) [] (seq s k) = seq s k.
Proof.
  revert s. induction k as [|k IH]; intros s H; [reflexivity|].
  cbn [seq fold_right]. rewrite IH by (intros i H1 H2; apply H; lia).
  destruct k as [|k]; [reflexivity|].
  cbn [seq insert_by]. rewrite H by lia. reflexivity.
Qed.

Lemma map_nth_seq_id (x : list num) :
  map (fun i => nth i x zero) (seq 0 (length x)) = x.
Proof.
  induction x as [|u x IH]; [reflexivity|].
  cbn [length seq map nth]. f_equal.
  rewrite <- seq_shift, map_map. exact IH.
Qed.

Lemma sort_indices_in_order (x : list num) :
  Sorted strictly_ascending x -> sort_indices x = seq 0 (length x).
Proof.
  intros H. unfold sort_indices. apply sort_seq_in_order.
  intros i _ Hi. now apply strictly_ascending_neighbours.
Qed.
End SortedNodes.

(** X6. When the rule builder hands back nodes that are already strictly
    ascending, with one weight each, [gauss_kronrod] returns those nodes
    and weights as they are. *)
Theorem gauss_kronrod_keeps_ordered_rule
        {num : Type} {N : Numeric num} {C : Compare num}
        (jacobi : Z -> result (list num * list num))
        (scheme_from_rc : list num -> list num -> result (list num * list num))
        (n : Z) (al be a b x w : list num) :
  jacobi (ceil_half (3 * n) + 1) = Ok (al, be) ->
  _r_kronrod n al be = Ok (a, b) ->
  scheme_from_rc a b = Ok (x, w) ->
  Sorted strictly_ascending x -> length x = length w ->
  exists sch, gauss_kronrod jacobi scheme_from_rc n = Ok sch /\
    points sch = x /\ weights sch = w.
Proof.
  intros Ej Ek Es Hx L. unfold gauss_kronrod, argsort.
  rewrite Ej. cbn [bind]. rewrite Ek. cbn [bind]. rewrite Es. cbn [bind].
  rewrite (sort_indices_in_order Hx).
  rewrite !take_indices by (intros i Hi; apply in_seq in Hi; lia).
  cbn [bind]. eexists. split; [reflexivity|]. cbn [points weights].
  split; [apply map_nth_seq_id|]. rewrite L. apply map_nth_seq_id.
Qed.

Lemma gauss_kronrod_keeps_ordered_rule_witness :
  exists sch, gauss_kronrod legendre simpson_rule_Q 1 = Ok sch /\
    points sch = [-1; 0; 1]%Q /\ weights sch = [1 # 3; 4 # 3; 1 # 3]%Q.
Proof.
  apply (@gauss_kronrod_keeps_ordered_rule Q _ _ legendre simpson_rule_Q 1
           [0; 0; 0]%Q [2; 1 # 3; 4 # 15]%Q
           [0; 0; 0]%Q [2; 1 # 3; 4 # 15]%Q).
  - reflexivity.
  - vm_compute. reflexivity.
  - reflexivity.
  - repeat constructor.
  - reflexivity.
Defined.

(** ** [_gauss_kronrod_integrate]: failures and the sample points *)

Lemma gauss_kronrod_order
      {num : Type} {N : Numeric num} {C : Compare num}
      (jacobi : Z -> result (list num * list num))
      (scheme_from_rc : list num -> list num -> result (list num * list num))
      (n : Z) (sch : LineSegmentScheme num) :
  gauss_kronrod jacobi scheme_from_rc n = Ok sch -> 1 <= n.
Proof.
  unfold gauss_kronrod.
  destruct (jacobi _) as [[al be]|]; cbn [bind]; [|discriminate].
  destruct (_r_kronrod n al be) as [[a b]|] eqn:Ek; cbn [bind];
    [|discriminate].
  intros _. exact (proj1 (r_kronrod_returns_inv _ _ _ Ek)).
Qed.

(** X7. For an order [k <= 0] the integrator raises while building the
    Kronrod rule: the integrand is not evaluated. *)
Theorem integrate_rejects_nonpositive_order
        {num : Type} {N : Numeric num} {C : Compare num} {E : Elementary num}
        (jacobi : Z -> result (list num * list num))
        (scheme_from_rc : list num -> list num -> result (list num * list num))
        (gauss_legendre : Z -> result (LineSegmentScheme num))
        (k : Z) (f : matrix num -> result (matrix num))
        (intervals : list (num * num)) (log : list (matrix num)) :
  k <= 0 ->
  exists e,
    gauss_kronrod jacobi scheme_from_rc k = Raise e /\
    _gauss_kronrod_integrate jacobi scheme_from_rc gauss_legendre k f
                             intervals log
    = (Raise e, log).
Proof.
  intros Hk.
  destruct (gauss_kronrod jacobi scheme_from_rc k) as [sch|e] eqn:Eg.
  - apply gauss_kronrod_order in Eg. lia.
  - exists e. split; [reflexivity|].
    unfold _gauss_kronrod_integrate, integrate_locals, tbind, lift.
    rewrite Eg. reflexivity.
Qed.

Lemma integrate_rejects_nonpositive_order_witness :
  exists e,
    gauss_kronrod legendre_float rule_of_order_one 0 = Raise e /\
    _gauss_kronrod_integrate (E := Elementary_float pow_three_halves)
      legendre_float rule_of_order_one gauss_legendre_one 0
      square_integrand [(0%float, 1%float)] []
    = (Raise e, []).
Proof.
  apply (@integrate_rejects_nonpositive_order float _ _
           (Elementary_float pow_three_halves)
           legendre_float rule_of_order_one gauss_legendre_one 0
           square_integrand [(0%float, 1%float)] []).
  lia.
Defined.

(** X8. When both rules are built and the integrand raises, the
    integrator raises the same exception, having called the integrand
    once. *)
Theorem integrand_exception_propagates
        {num : Type} {N : Numeric num} {C : Compare num} {E : Elementary num}
        (jacobi : Z -> result (list num * list num))
        (scheme_from_rc : list num -> list num -> result (list num * list num))
        (gauss_legendre : Z -> result (LineSegmentScheme num))
        (k : Z) (f : matrix num -> result (matrix num))
        (intervals : list (num * num)) (log : list (matrix num))
        (gk gl : LineSegmentScheme num) (e : exn) :
  gauss_kronrod jacobi scheme_from_rc k = Ok gk ->
  gauss_legendre k = Ok gl ->
  f (sample_points (points gk) intervals) = Raise e ->
  _gauss_kronrod_integrate jacobi scheme_from_rc gauss_legendre k f
                           intervals log
  = (Raise e, log ++ [sample_points (points gk) intervals]).
Proof.
  intros Egk Egl Ef.
  unfold _gauss_kronrod_integrate, integrate_locals, tbind, lift, call.
  rewrite Egk, Egl, Ef. reflexivity.
Qed.

Lemma integrand_exception_propagates_witness :
  _gauss_kronrod_integrate (E := Elementary_float pow_three_halves)
    legendre_float rule_of_order_one gauss_legendre_one 1
    failing_integrand [(0%float, 1%float)] []
  = (Raise ValueError,
     [] ++ [sample_points (E := Elementary_float pow_three_halves)
                          (points kronrod_order_one) [(0%float, 1%float)]]).
Proof.
  apply (@integrand_exception_propagates float _ _
           (Elementary_float pow_three_halves)
           legendre_float rule_of_order_one gauss_legendre_one 1
           failing_integrand [(0%float, 1%float)] []
           kronrod_order_one
           {| name := "Gauss-Legendre (1)"%string; degree := 1;
              weights := [2%float]; points := [0%float] |}).
  - vm_compute. reflexivity.
  - reflexivity.
  - reflexivity.
Defined.

Section SamplePoints.
Context {num : Type} {N : Numeric num} {E : Elementary num}.

(** Row [i] of the sample points holds, node by node, the combination
    [lo * x0 + hi * x1] of the endpoints of interval [i]. *)
Lemma sample_points_rows (pts : list num) (intervals : list (num * num)) :
  sample_points pts intervals =
  map (fun iv =>
         map (fun t => add (mul (fst iv) (mul half (sub one t)))
                           (mul (snd iv) (mul half (add one t)))) pts)
      intervals.
Proof.
  unfold sample_points, outer. rewrite !map_map.
  rewrite zip_with_map_same. apply map_ext. intros [lo hi].
  cbn [fst snd]. rewrite !map_map, zip_with_map_same. reflexivity.
Qed.
End SamplePoints.

(** X9. The array handed to the integrand has one row per interval and,
    in every row, one entry per Kronrod node. *)
Theorem sample_points_shape
        {num : Type} {N : Numeric num} {E : Elementary num}
        (pts : list num) (intervals : list (num * num)) :
  length (sample_points pts intervals) = length intervals /\
  Forall (fun row => length row = length pts) (sample_points pts intervals).
Proof.
  rewrite sample_points_rows. split; [apply length_map|].
  apply Forall_forall. intros row Hr. apply in_map_iff in Hr.
  destruct Hr as (iv & <- & _). apply length_map.
Qed.

(** ** The integrator in exact arithmetic *)

(** X10. In exact arithmetic, with every node in [[-1, 1]], every sample
    point of an interval lies between the endpoints of that interval,
    whichever endpoint is the larger. *)
Theorem sample_points_within_interval
        (pts : list R) (intervals : list (R * R)) :
  Forall (fun t => (-1 <= t <= 1)%R) pts ->
  forall i lo hi row,
    nth_error intervals i = Some (lo, hi) ->
    nth_error (sample_points pts intervals) i = Some row ->
    Forall (fun x => (Rmin lo hi <= x <= Rmax lo hi)%R) row.
Proof.
  intros Hp i lo hi row Hi Hr.
  rewrite sample_points_rows, nth_error_map, Hi in Hr.
  cbn [option_map fst snd] in Hr. injection Hr as <-.
  apply Forall_map. revert Hp. apply Forall_impl. intros t Ht.
  cbn [mul add sub half one Numeric_R Elementary_R].
  unfold Rmin, Rmax. destruct (Rle_dec lo hi); nra.
Qed.

Lemma sample_points_within_interval_witness :
  Forall (fun x => (Rmin 3 1 <= x <= Rmax 3 1)%R)
         (map (fun t => 3 * (1 / 2 * (1 - t)) + 1 * (1 / 2 * (1 + t)))%R
              [-1; 0; 1]%R).
Proof.
  apply (@sample_points_within_interval [-1; 0; 1]%R [(3, 1)]%R
           ltac:(repeat constructor; lra) 0%nat 3%R 1%R).
  - reflexivity.
  - reflexivity.
Defined.

Lemma sqrt_of_square (d : R) : R_sqrt.sqrt (d * d) = Rabs d.
Proof. exact (sqrt_Rsqr_abs d). Qed.

(** X11. In exact arithmetic the scale factor [alpha] of a returning call
    is, interval by interval, the length [|hi - lo|] of the interval. *)
Theorem alpha_is_interval_length
        (jacobi : Z -> result (list R * list R))
        (scheme_from_rc : list R -> list R -> result (list R * list R))
        (gauss_legendre : Z -> result (LineSegmentScheme R))
        (k : Z) (f : matrix R -> result (matrix R))
        (intervals : list (R * R)) (log log' : list (matrix R))
        (vks vgs als errs : list R) (ds rs : list Z) :
  _gauss_kronrod_integrate jacobi scheme_from_rc gauss_legendre k f
                           intervals log
  = (Ok (vks, vgs, als, errs, ds, rs), log') ->
  als = map (fun iv => Rabs (snd iv - fst iv)) intervals.
Proof.
  intros H. apply integrate_inv in H.
  destruct H as (l & El & _ & _ & -> & _).
  apply integrate_locals_inv in El.
  destruct El as (gk & gl & dk & dl & di & Hc & _).
  rewrite (c_alpha Hc), zip_with_map_same, !map_map.
  apply map_ext. intros [lo hi].
  cbn [mul sub sqrt fst snd Numeric_R Elementary_R].
  apply sqrt_of_square.
Qed.

(** X12. In exact arithmetic, with non-negative Kronrod weights, the
    error estimate of an interval whose [I_tilde] is not zero is at most
    that [I_tilde]. *)
Theorem error_estimate_at_most_I_tilde
        (jacobi : Z -> result (list R * list R))
        (scheme_from_rc : list R -> list R -> result (list R * list R))
        (gauss_legendre : Z -> result (LineSegmentScheme R))
        (k : Z) (f : matrix R -> result (matrix R))
        (intervals : list (R * R)) (log log' : list (matrix R))
        (vks vgs als errs : list R) (ds rs : list Z)
        (gk : LineSegmentScheme R) (fx : matrix R) :
  _gauss_kronrod_integrate jacobi scheme_from_rc gauss_legendre k f
                           intervals log
  = (Ok (vks, vgs, als, errs, ds, rs), log') ->
  gauss_kronrod jacobi scheme_from_rc k = Ok gk ->
  f (sample_points (points gk) intervals) = Ok fx ->
  Forall (fun w => (0 <= w)%R) (weights gk) ->
  forall i vk vg al row e,
    nth_error vks i = Some vk -> nth_error vgs i = Some vg ->
    nth_error als i = Some al -> nth_error fx i = Some row ->
    nth_error errs i = Some e ->
    let I_tilde :=
      (1 / 2 * al * weighted_sum (map (fun y => Rabs (y - vk / al)) row)
                                 (weights gk))%R in
    I_tilde <> 0%R ->
    (e <= I_tilde)%R.
Proof.
  intros H Egk Efx Hw i vk vg al row e Hk Hg Ha Hr He I _.
  apply integrate_inv in H. destruct H as (l & El & -> & -> & -> & ->).
  apply integrate_locals_inv in El.
  destruct El as (gk' & gl & dk & dl & di & Hc & _).
  pose proof (c_gk Hc) as G. rewrite Egk in G. injection G as <-.
  pose proof (c_fx Hc) as G. rewrite Efx in G. injection G as ->.
  rewrite (proj2 (integrate_entry i Hc Hk Hg Ha Hr)) in He.
  injection He as <-.
  cbn [mul div sub add half one two_hundred three_halves absolute
           power minimum Numeric_R Elementary_R].
  fold I.
  assert (Hal : (0 <= al)%R).
  { rewrite (c_alpha Hc), nth_error_map in Ha.
    match type of Ha with
    | option_map _ ?o = _ => destruct o; cbn [option_map] in Ha
    end; [|discriminate].
    injection Ha as <-. apply sqrt_pos. }
  assert (HI : (0 <= I)%R).
  { unfold I. apply Rmult_le_pos; [lra|].
    now apply weighted_abs_sum_nonneg with (g := fun y => (y - vk / al)%R). }
  apply Rle_trans with (I * 1)%R; [|lra].
  apply Rmult_le_compat_l; [exact HI | apply Rmin_l].
Qed.

Lemma error_estimate_at_most_I_tilde_witness :
  (2 / 9 * Rmin 1 (Rpow 75 (3 / 2))
   <= 1 / 2 * 1 * weighted_sum
                    (map (fun y => Rabs (y - 1 / 3 / 1)) [0; 1 / 4; 1])
                    [1 / 3; 4 / 3; 1 / 3])%R.
Proof.
  apply (@error_estimate_at_most_I_tilde
           legendre_R simpson_rule midpoint_rule 1 square_R
           [(0, 1)]%R [] [[[0; 1 / 2; 1]]]%R
           [1 / 3]%R [1 / 4]%R [1]%R
           [2 / 9 * Rmin 1 (Rpow 75 (3 / 2))]%R [] []
           {| name := "Gauss-Kronrod (1)"%string; degree := 7;
              weights := [1 / 3; 4 / 3; 1 / 3]%R;
              points := [-1; 0; 1]%R |}
           [[0; 1 / 4; 1]]%R
           simpson_call simpson_kronrod simpson_evaluations
           ltac:(repeat constructor; lra)
           0%nat (1 / 3)%R (1 / 4)%R 1%R [0; 1 / 4; 1]%R).
  - reflexivity.
  - reflexivity.
  - reflexivity.
  - reflexivity.
  - reflexivity.
  - rcbv. split_abs. lra.
Defined.

Lemma alpha_is_interval_length_witness :
  [1%R] = map (fun iv => Rabs (snd iv - fst iv)) [(0, 1)]%R.
Proof.
  apply (@alpha_is_interval_length
           legendre_R simpson_rule midpoint_rule 1 square_R
           [(0, 1)]%R [] [[[0; 1 / 2; 1]]]%R
           [1 / 3]%R [1 / 4]%R [1]%R
           [2 / 9 * Rmin 1 (Rpow 75 (3 / 2))]%R [] []).
  exact simpson_call.
Defined.

Lemma linear_call :
  _gauss_kronrod_integrate legendre_R simpson_rule midpoint_rule 1
                           identity_R [(0, 1)]%R []
  = (Ok ([1 / 2], [1 / 2], [1],
         [1 / 6 * Rmin 1 (Rpow 0 (3 / 2))], [], [])%R,
     [[[0; 1 / 2; 1]]]%R).
Proof.
  unfold _gauss_kronrod_integrate, integrate_locals, tbind, lift, call, tret.
  rewrite simpson_kronrod. rcbv.
  assert (S : R_sqrt.sqrt ((1 - 0) * (1 - 0)) = 1%R).
  { replace ((1 - 0) * (1 - 0))%R with (1 * 1)%R by ring.
    apply sqrt_square. lra. }
  rewrite !S. split_abs.
  repeat match goal with
         | |- (_, _) = (_, _) => apply f_equal2
         | |- Ok _ = Ok _ => apply f_equal
         | |- _ :: _ = _ :: _ => apply f_equal2
         | |- @nil _ = @nil _ => reflexivity
         end; try lra.
  match goal with
  | |- (?a * Rmin 1 (Rpow ?q ?y))%R = _ =>
      replace q with 0%R by (field_simplify; lra);
      replace a with (1 / 6)%R by lra
  end.
  reflexivity.
Qed.

Lemma linear_evaluations :
  identity_R (sample_points [-1; 0; 1]%R [(0, 1)]%R)
  = Ok [[0; 1 / 2; 1]]%R.
Proof.
  rcbv.
  repeat match goal with
         | |- Ok _ = Ok _ => apply f_equal
         | |- _ :: _ = _ :: _ => apply f_equal2
         | |- @nil _ = @nil _ => reflexivity
         end; lra.
Qed.

(** X13. In exact arithmetic the error estimate of an interval on which
    the Kronrod and the Gauss estimate coincide, and whose [I_tilde] is
    not zero, is 0. *)
Theorem equal_estimates_give_zero_error
        (jacobi : Z -> result (list R * list R))
        (scheme_from_rc : list R -> list R -> result (list R * list R))
        (gauss_legendre : Z -> result (LineSegmentScheme R))
        (k : Z) (f : matrix R -> result (matrix R))
        (intervals : list (R * R)) (log log' : list (matrix R))
        (vks vgs als errs : list R) (ds rs : list Z)
        (gk : LineSegmentScheme R) (fx : matrix R) :
  _gauss_kronrod_integrate jacobi scheme_from_rc gauss_legendre k f
                           intervals log
  = (Ok (vks, vgs, als, errs, ds, rs), log') ->
  gauss_kronrod jacobi scheme_from_rc k = Ok gk ->
  f (sample_points (points gk) intervals) = Ok fx ->
  forall i v al row,
    nth_error vks i = Some v -> nth_error vgs i = Some v ->
    nth_error als i = Some al -> nth_error fx i = Some row ->
    let I_tilde :=
      (1 / 2 * al * weighted_sum (map (fun y => Rabs (y - v / al)) row)
                                 (weights gk))%R in
    I_tilde <> 0%R ->
    nth_error errs i = Some 0%R.
Proof.
  intros H Egk Efx i v al row Hk Hg Ha Hr I HI.
  apply integrate_inv in H. destruct H as (l & El & -> & -> & -> & ->).
  apply integrate_locals_inv in El.
  destruct El as (gk' & gl & dk & dl & di & Hc & _).
  pose proof (c_gk Hc) as G. rewrite Egk in G. injection G as <-.
  pose proof (c_fx Hc) as G. rewrite Efx in G. injection G as ->.
  rewrite (proj2 (integrate_entry i Hc Hk Hg Ha Hr)). f_equal.
  cbn [mul div sub add half one two_hundred three_halves absolute
           power minimum Numeric_R Elementary_R].
  fold I.
  replace (v - v)%R with 0%R by ring. rewrite Rabs_R0.
  replace (200 * 0 / I)%R with 0%R by (field; exact HI).
  unfold Rpow. destruct (Rlt_dec 0 0) as [Hlt|_]; [lra|].
  rewrite Rmin_right by lra. ring.
Qed.

Lemma equal_estimates_give_zero_error_witness :
  nth_error [1 / 6 * Rmin 1 (Rpow 0 (3 / 2))]%R 0 = Some 0%R.
Proof.
  apply (@equal_estimates_give_zero_error
           legendre_R simpson_rule midpoint_rule 1 identity_R
           [(0, 1)]%R [] [[[0; 1 / 2; 1]]]%R
           [1 / 2]%R [1 / 2]%R [1]%R
           [1 / 6 * Rmin 1 (Rpow 0 (3 / 2))]%R [] []
           {| name := "Gauss-Kronrod (1)"%string; degree := 7;
              weights := [1 / 3; 4 / 3; 1 / 3]%R;
              points := [-1; 0; 1]%R |}
           [[0; 1 / 2; 1]]%R
           linear_call simpson_kronrod linear_evaluations
           0%nat (1 / 2)%R 1%R [0; 1 / 2; 1]%R).
  - reflexivity.
  - reflexivity.
  - reflexivity.
  - reflexivity.
  - rcbv. split_abs. lra.
Defined.

(** ** The integrator on binary64: an interval of length zero *)

Lemma float_mul_nan_r (x : float) : PrimFloat.mul x nan = nan.
Proof.
  apply Prim2SF_inj. rewrite mul_spec.
  change (Prim2SF nan) with S754_nan.
  destruct (Prim2SF x) as [?| ?| |? ? ?]; reflexivity.
Qed.

Lemma float_mul_nan_l (x : float) : PrimFloat.mul nan x = nan.
Proof.
  apply Prim2SF_inj. rewrite mul_spec.
  change (Prim2SF nan) with S754_nan. reflexivity.
Qed.

Lemma float_add_nan_r (x : float) : PrimFloat.add x nan = nan.
Proof.
  apply Prim2SF_inj. rewrite add_spec.
  change (Prim2SF nan) with S754_nan.
  destruct (Prim2SF x) as [?| ?| |? ? ?]; reflexivity.
Qed.

Lemma float_add_nan_l (x : float) : PrimFloat.add nan x = nan.
Proof.
  apply Prim2SF_inj. rewrite add_spec.
  change (Prim2SF nan) with S754_nan. reflexivity.
Qed.

Lemma float_sub_nan_r (x : float) : PrimFloat.sub x nan = nan.
Proof.
  apply Prim2SF_inj. rewrite sub_spec.
  change (Prim2SF nan) with S754_nan.
  destruct (Prim2SF x) as [?| ?| |? ? ?]; reflexivity.
Qed.

(** A zero times any float is a zero or a NaN. *)
Lemma float_zero_mul (z d : float) :
  z = 0%float \/ z = (-0)%float ->
  PrimFloat.mul z d = 0%float \/ PrimFloat.mul z d = (-0)%float \/
  PrimFloat.mul z d = nan.
Proof.
  intros Hz. rewrite <- (SF2Prim_Prim2SF (PrimFloat.mul z d)).
  rewrite mul_spec.
  destruct Hz as [-> | ->].
  - change (Prim2SF 0) with (S754_zero false).
    destruct (Prim2SF d) as [[|]|[|]| |[|] m e]; cbn; auto.
  - change (Prim2SF (-0)) with (S754_zero true).
    destruct (Prim2SF d) as [[|]|[|]| |[|] m e]; cbn; auto.
Qed.

Lemma fold_left_add_nan (l : list float) :
  fold_left PrimFloat.add l nan = nan.
Proof.
  induction l as [|x l IH]; cbn [fold_left]; [reflexivity|].
  now rewrite float_add_nan_l.
Qed.

(** The weighted sum of deviations from a NaN average is a NaN. *)
Lemma weighted_sum_of_nan_deviations (row w : list float) :
  row <> [] -> length row = length w ->
  weighted_sum (map (fun y => abs (y - nan))%float row) w = nan.
Proof.
  intros Hr L. destruct row as [|y row]; [congruence|].
  destruct w as [|w0 w]; [discriminate|].
  unfold weighted_sum. cbn [map zip_with fold_left mul add zero
                                Numeric_float].
  rewrite float_sub_nan_r. change (abs nan) with nan.
  rewrite float_mul_nan_l, float_add_nan_r. apply fold_left_add_nan.
Qed.

(** X14. On binary64, in a returning call, an interval whose scale factor
    [alpha] compares equal to 0 (both endpoints the same) gets the error
    estimate NaN: the average [val_kronrod / alpha] is 0/0. *)
Theorem degenerate_interval_error_is_nan
        (pow : float -> float -> float)
        (jacobi : Z -> result (list float * list float))
        (scheme_from_rc :
           list float -> list float -> result (list float * list float))
        (gauss_legendre : Z -> result (LineSegmentScheme float))
        (k : Z) (f : matrix float -> result (matrix float))
        (intervals : list (float * float)) (log log' : list (matrix float))
        (vks vgs als errs : list float) (ds rs : list Z)
        (gk : LineSegmentScheme float) (fx : matrix float) :
  _gauss_kronrod_integrate (E := Elementary_float pow)
                           jacobi scheme_from_rc gauss_legendre k f
                           intervals log
  = (Ok (vks, vgs, als, errs, ds, rs), log') ->
  gauss_kronrod jacobi scheme_from_rc k = Ok gk ->
  f (sample_points (E := Elementary_float pow) (points gk) intervals)
  = Ok fx ->
  forall i al row,
    nth_error als i = Some al -> PrimFloat.eqb al 0 = true ->
    nth_error fx i = Some row -> row <> [] ->
    nth_error errs i = Some nan.
Proof.
  intros H Egk Efx i al row Ha Hz Hr Hne.
  apply integrate_inv in H. destruct H as (l & El & -> & -> & -> & ->).
  apply integrate_locals_inv in El.
  destruct El as (gk' & gl & dk & dl & di & Hc & _).
  pose proof (c_gk Hc) as G. rewrite Egk in G. injection G as <-.
  pose proof (c_fx Hc) as G. rewrite Efx in G. injection G as ->.
  destruct (computed_lengths Hc) as (La & Lk & Ll & _).
  assert (Hi : (i < length intervals)%nat).
  { rewrite <- La. apply nth_error_Some. congruence. }
  destruct (nth_error (val_gauss_kronrod l) i) as [vk|] eqn:Hk;
    [|apply nth_error_None in Hk; lia].
  destruct (nth_error (val_gauss_legendr l) i) as [vg|] eqn:Hg;
    [|apply nth_error_None in Hg; lia].
  rewrite (proj2 (integrate_entry i Hc Hk Hg Ha Hr)). f_equal.
  assert (Hav : div vk al = nan).
  { rewrite (c_vk Hc), nth_error_zip_with, nth_error_map, Ha in Hk.
    cbn [option_map] in Hk.
    destruct (nth_error dk i) as [d|]; [|discriminate].
    injection Hk as <-.
    cbn [mul div half Numeric_float Elementary_float].
    destruct (float_eqb_zero Hz) as [-> | ->].
    - destruct (@float_zero_mul (0.5 * 0)%float d (or_introl eq_refl))
        as [-> | [-> | ->]]; reflexivity.
    - destruct (@float_zero_mul (0.5 * -0)%float d (or_intror eq_refl))
        as [-> | [-> | ->]]; reflexivity. }
  rewrite Hav.
  cbn [mul div sub add half one two_hundred three_halves absolute
           power minimum Numeric_float Elementary_float].
  rewrite weighted_sum_of_nan_deviations;
    [| exact Hne | exact (@dot_row_length _ _ _ _ _ i row (c_dk Hc) Hr)].
  rewrite float_mul_nan_r. apply float_mul_nan_l.
Qed.

Lemma degenerate_interval_error_is_nan_witness :
  nth_error [nan] 0 = Some nan.
Proof.
  apply (@degenerate_interval_error_is_nan pow_three_halves
           legendre_float rule_of_order_one gauss_legendre_one
           1 square_integrand [(1%float, 1%float)] []
           [[[1%float; 1%float; 1%float]]]
           [0%float] [0%float] [0%float] [nan] [] []
           kronrod_order_one [[1%float; 1%float; 1%float]]
           ltac:(vm_compute; reflexivity)
           ltac:(vm_compute; reflexivity)
           ltac:(vm_compute; reflexivity)
           0%nat 0%float [1%float; 1%float; 1%float]).
  - reflexivity.
  - reflexivity.
  - reflexivity.
  - discriminate.
Defined.

(** ** The Radon scheme: geometry, signs, moments *)

Lemma radon_points (alpha : R) :
  let r := R_sqrt.sqrt ((alpha + 4) / (alpha + 6)) in
  let s := R_sqrt.sqrt ((alpha + 4) / (4 * (alpha + 6))) in
  let t := R_sqrt.sqrt (3 * (alpha + 4) / (4 * (alpha + 6))) in
  disk_points (radon alpha)
  = [[0; 0]; [r; 0]; [- r; 0]; [s; t]; [- s; t]; [s; - t]; [- s; - t]]%R.
Proof. reflexivity. Qed.

Lemma radon_weights (alpha : R) :
  let A := (4 / (alpha + 4) ^ 2)%R in
  let B := ((alpha + 2) * (alpha + 6) / (6 * (alpha + 4) ^ 2))%R in
  disk_weights (radon alpha)
  = [A * PI; B * PI; B * PI; B * PI; B * PI; B * PI; B * PI]%R.
Proof. reflexivity. Qed.

(** Squares of the three radii of the scheme. *)
Lemma radon_radii (alpha : R) :
  (alpha + 6 <> 0)%R -> (0 <= (alpha + 4) / (alpha + 6))%R ->
  let q := ((alpha + 4) / (alpha + 6))%R in
  let r := R_sqrt.sqrt ((alpha + 4) / (alpha + 6)) in
  let s := R_sqrt.sqrt ((alpha + 4) / (4 * (alpha + 6))) in
  let t := R_sqrt.sqrt (3 * (alpha + 4) / (4 * (alpha + 6))) in
  (r * r = q /\ s * s = q / 4 /\ t * t = 3 * q / 4)%R.
Proof.
  intros H6 Hq q r s t. split; [|split].
  - unfold r. apply sqrt_sqrt. exact Hq.
  - unfold s. rewrite sqrt_sqrt.
    + unfold q. field. exact H6.
    + replace ((alpha + 4) / (4 * (alpha + 6)))%R with (q / 4)%R
        by (unfold q; field; exact H6).
      unfold q. lra.
  - unfold t. rewrite sqrt_sqrt.
    + unfold q. field. exact H6.
    + replace (3 * (alpha + 4) / (4 * (alpha + 6)))%R with (3 * q / 4)%R
        by (unfold q; field; exact H6).
      unfold q. lra.
Qed.

(** X15. With [(alpha + 4) / (alpha + 6) >= 0] the first point of
    [radon(alpha)] is the origin and the other six lie on the circle of
    radius [sqrt((alpha + 4) / (alpha + 6))] around it. *)
Theorem radon_points_on_circle (alpha : R) :
  (alpha + 6 <> 0)%R -> (0 <= (alpha + 4) / (alpha + 6))%R ->
  hd [] (disk_points (radon alpha)) = [0; 0]%R /\
  Forall (fun p => (nth 0 p 0 ^ 2 + nth 1 p 0 ^ 2
                    = (alpha + 4) / (alpha + 6))%R)
         (tl (disk_points (radon alpha))).
Proof.
  intros H6 Hq. rewrite radon_points. cbn [hd tl]. split; [reflexivity|].
  destruct (radon_radii H6 Hq) as (Hr & Hs & Ht).
  repeat constructor; cbn [nth];
    match goal with
    | |- (?x ^ 2 + ?y ^ 2 = _)%R =>
        replace (x ^ 2 + y ^ 2)%R with (x * x + y * y)%R by ring
    end;
    rewrite ?Rmult_opp_opp, ?Hr, ?Hs, ?Ht; field; exact H6.
Qed.

Lemma radon_points_on_circle_witness :
  hd [] (disk_points (radon 0)) = [0; 0]%R /\
  Forall (fun p => (nth 0 p 0 ^ 2 + nth 1 p 0 ^ 2 = (0 + 4) / (0 + 6))%R)
         (tl (disk_points (radon 0))).
Proof.
  apply (@radon_points_on_circle 0%R).
  - lra.
  - lra.
Defined.

(** X16. The central weight of [radon(alpha)] is positive whenever
    [alpha + 4] is not zero, and the six outer weights are positive
    exactly when [(alpha + 2)(alpha + 6) > 0]: for [alpha] strictly
    between -6 and -2 they are not. *)
Theorem radon_weight_signs (alpha : R) :
  (alpha + 4 <> 0)%R ->
  (0 < hd 0 (disk_weights (radon alpha)))%R /\
  (Forall (fun w => (0 < w)%R) (tl (disk_weights (radon alpha))) <->
   (0 < (alpha + 2) * (alpha + 6))%R).
Proof.
  intros H4. rewrite radon_weights. cbn [hd tl].
  assert (Hsq : (0 < (alpha + 4) ^ 2)%R).
  { replace ((alpha + 4) ^ 2)%R with ((alpha + 4) * (alpha + 4))%R by ring.
    destruct (Rdichotomy _ _ H4); nra. }
  pose proof PI_RGT_0 as Hpi.
  split.
  - apply Rmult_lt_0_compat; [|exact Hpi].
    apply Rdiv_lt_0_compat; lra.
  - split.
    + intros H. pose proof (Forall_inv H) as Hw. cbn beta in Hw.
      assert (HB : (0 < (alpha + 2) * (alpha + 6) / (6 * (alpha + 4) ^ 2))%R).
      { apply Rmult_lt_reg_r with PI; [exact Hpi|]. lra. }
      apply Rmult_lt_reg_r with (/ (6 * (alpha + 4) ^ 2))%R.
      * apply Rinv_0_lt_compat. lra.
      * unfold Rdiv in HB. lra.
    + intros H.
      assert (HB : (0 < (alpha + 2) * (alpha + 6) / (6 * (alpha + 4) ^ 2)
                        * PI)%R).
      { apply Rmult_lt_0_compat; [|exact Hpi].
        apply Rdiv_lt_0_compat; lra. }
      repeat constructor; exact HB.
Qed.

Lemma radon_weight_signs_witness :
  (0 < hd 0 (disk_weights (radon 0)))%R /\
  (Forall (fun w => (0 < w)%R) (tl (disk_weights (radon 0))) <->
   (0 < (0 + 2) * (0 + 6))%R).
Proof.
  apply (@radon_weight_signs 0%R). lra.
Defined.

Lemma pow_opp_parity (x : R) (n : nat) :
  ((- x) ^ n = if Nat.odd n then - x ^ n else x ^ n)%R.
Proof.
  induction n as [|n IH].
  - cbn. ring.
  - rewrite Nat.odd_succ, <- Nat.negb_odd. cbn [pow]. rewrite IH.
    destruct (Nat.odd n); cbn [negb]; ring.
Qed.

Lemma pow_zero_odd (n : nat) : Nat.odd n = true -> (0 ^ n = 0)%R.
Proof.
  intros H. apply pow_i. destruct n; [discriminate | lia].
Qed.

(** X17. Every monomial [x^a y^b] with an odd exponent has sum 0 under
    [radon(alpha)]: the points come in pairs mirrored in both axes. *)
Theorem radon_odd_moments_vanish (alpha : R) (a b : nat) :
  (alpha + 6 <> 0)%R -> (0 <= (alpha + 4) / (alpha + 6))%R ->
  Nat.odd a = true \/ Nat.odd b = true ->
  monomial_sum a b (radon alpha) = 0%R.
Proof.
  intros _ _ Hab. unfold monomial_sum.
  rewrite radon_weights, radon_points.
  cbn [zip_with Rsum fold_right nth].
  rewrite !(pow_opp_parity _ a), !(pow_opp_parity _ b).
  destruct Hab as [Ha | Hb].
  - rewrite Ha, (pow_zero_odd _ Ha). destruct (Nat.odd b); ring.
  - rewrite Hb, (pow_zero_odd _ Hb). destruct (Nat.odd a); ring.
Qed.

Lemma radon_odd_moments_vanish_witness :
  monomial_sum 3 2 (radon 0) = 0%R.
Proof.
  apply (@radon_odd_moments_vanish 0%R 3 2).
  - lra.
  - lra.
  - left. reflexivity.
Defined.

(** X18. With [alpha + 4] and [alpha + 6] not zero and
    [(alpha + 4) / (alpha + 6) >= 0], the sums of [radon(alpha)] for the
    even monomials of degree 2 and 4 are the same in both axes:
    [x^2] and [y^2] give [pi (alpha + 2) / (2 (alpha + 4))], [x^4] and
    [y^4] give [3 pi (alpha + 2) / (8 (alpha + 6))], three times the sum
    for [x^2 y^2]. *)
Theorem radon_even_moments (alpha : R) :
  (alpha + 4 <> 0)%R -> (alpha + 6 <> 0)%R ->
  (0 <= (alpha + 4) / (alpha + 6))%R ->
  (monomial_sum 2 0 (radon alpha) = PI * (alpha + 2) / (2 * (alpha + 4)) /\
   monomial_sum 0 2 (radon alpha) = PI * (alpha + 2) / (2 * (alpha + 4)) /\
   monomial_sum 4 0 (radon alpha)
   = 3 * PI * (alpha + 2) / (8 * (alpha + 6)) /\
   monomial_sum 0 4 (radon alpha)
   = 3 * PI * (alpha + 2) / (8 * (alpha + 6)) /\
   monomial_sum 2 2 (radon alpha) = PI * (alpha + 2) / (8 * (alpha + 6)))%R.
Proof.
  intros H4 H6 Hq. unfold monomial_sum.
  rewrite radon_weights, radon_points.
  destruct (radon_radii H6 Hq) as (Hr & Hs & Ht).
  set (r := R_sqrt.sqrt ((alpha + 4) / (alpha + 6))) in *.
  set (s := R_sqrt.sqrt ((alpha + 4) / (4 * (alpha + 6)))) in *.
  set (t := R_sqrt.sqrt (3 * (alpha + 4) / (4 * (alpha + 6)))) in *.
  clearbody r s t.
  cbn [zip_with Rsum fold_right nth].
  assert (P2 : forall x, ((- x) ^ 2 = x * x /\ x ^ 2 = x * x)%R)
    by (intros x; split; ring).
  assert (P4 : forall x, ((- x) ^ 4 = x * x * (x * x) /\
                          x ^ 4 = x * x * (x * x))%R)
    by (intros x; split; ring).
  rewrite !(proj1 (P2 r)), !(proj1 (P2 s)), !(proj1 (P2 t)),
          !(proj2 (P2 r)), !(proj2 (P2 s)), !(proj2 (P2 t)),
          !(proj1 (P4 r)), !(proj1 (P4 s)), !(proj1 (P4 t)),
          !(proj2 (P4 r)), !(proj2 (P4 s)), !(proj2 (P4 t)).
  rewrite Hr, Hs, Ht.
  repeat split; field; auto.
Qed.

Lemma radon_even_moments_witness :
  (monomial_sum 2 0 (radon 0) = PI * (0 + 2) / (2 * (0 + 4)) /\
   monomial_sum 0 2 (radon 0) = PI * (0 + 2) / (2 * (0 + 4)) /\
   monomial_sum 4 0 (radon 0) = 3 * PI * (0 + 2) / (8 * (0 + 6)) /\
   monomial_sum 0 4 (radon 0) = 3 * PI * (0 + 2) / (8 * (0 + 6)) /\
   monomial_sum 2 2 (radon 0) = PI * (0 + 2) / (8 * (0 + 6)))%R.
Proof.
  apply (@radon_even_moments 0%R).
  - lra.
  - lra.
  - lra.
Defined.

(** ** The integrator: sizes of the paired rules *)

(** X19. In a returning call every row of the integrand's value has as
    many entries as there are Kronrod weights, and the Gauss-Legendre
    rule has half as many weights, rounded down: the entries 1, 3, 5, ...
    of a row. *)
Theorem paired_rule_sizes
        {num : Type} {N : Numeric num} {C : Compare num} {E : Elementary num}
        (jacobi : Z -> result (list num * list num))
        (scheme_from_rc : list num -> list num -> result (list num * list num))
        (gauss_legendre : Z -> result (LineSegmentScheme num))
        (k : Z) (f : matrix num -> result (matrix num))
        (intervals : list (num * num)) (log log' : list (matrix num))
        (vks vgs als errs : list num) (ds rs : list Z)
        (gk gl : LineSegmentScheme num) (fx : matrix num) :
  _gauss_kronrod_integrate jacobi scheme_from_rc gauss_legendre k f
                           intervals log
  = (Ok (vks, vgs, als, errs, ds, rs), log') ->
  gauss_kronrod jacobi scheme_from_rc k = Ok gk ->
  gauss_legendre k = Ok gl ->
  f (sample_points (points gk) intervals) = Ok fx ->
  length fx = length intervals /\
  forall i row, nth_error fx i = Some row ->
    length row = length (weights gk) /\
    length (weights gl) = Nat.div2 (length row).
Proof.
  intros H Egk Egl Efx.
  apply integrate_inv in H. destruct H as (l & El & _).
  apply integrate_locals_inv in El.
  destruct El as (gk' & gl' & dk & dl & di & Hc & _).
  pose proof (c_gk Hc) as G. rewrite Egk in G. injection G as <-.
  pose proof (c_gl Hc) as G. rewrite Egl in G. injection G as <-.
  pose proof (c_fx Hc) as G. rewrite Efx in G. injection G as ->.
  split; [exact (c_rows Hc)|].
  intros i row Hr. split.
  - exact (@dot_row_length _ _ _ _ _ i row (c_dk Hc) Hr).
  - rewrite <- odd_entries_length. symmetry.
    apply (@dot_row_length _ _ _ _ _ i (odd_entries row) (c_dl Hc)).
    rewrite nth_error_map, Hr. reflexivity.
Qed.

Lemma paired_rule_sizes_witness :
  length [[0%float; 0%float; 0%float]] = length [(0%float, 1%float)] /\
  forall i row,
    nth_error [[0%float; 0%float; 0%float]] i = Some row ->
    length row = length (weights kronrod_order_one) /\
    length [2%float] = Nat.div2 (length row).
Proof.
  apply (@paired_rule_sizes float _ _ (Elementary_float pow_three_halves)
           legendre_float rule_of_order_one gauss_legendre_one
           1 zero_integrand [(0%float, 1%float)] []
           [unit_interval_points]
           [0%float] [0%float] [1%float] [nan] [] []
           kronrod_order_one
           {| name := "Gauss-Legendre (1)"%string; degree := 1;
              weights := [2%float]; points := [0%float] |}).
  - vm_compute. reflexivity.
  - vm_compute. reflexivity.
  - reflexivity.
  - vm_compute. reflexivity.
Defined.
